(** * mc3DDD: chunk store, world snapshot and collision resolver

    A shallow embedding of [src/game/ChunkManager.ts], of the
    [WorldManager] wrapper and of [CollisionManager], together with the
    properties the specification states about them.

    Conventions of the embedding:
    - block coordinates are integers ([Z]); the callers round every
      position before it reaches the store ([Math.round] in
      [getBlockIntersection]), and the generator only produces integers;
    - a JavaScript [Map<string, V>] is a [gmap string V]; the keys are the
      strings the source builds with its template literals;
    - observer coordinates, velocities and water levels are rationals ([Q])
      and the arithmetic of the streaming test, the ground probe and the
      movement code is read exactly; the boxes of the collision test are
      computed in IEEE doubles ([float]) as in the source, since its
      verdict at the edge of a box depends on the rounding;
    - [Math.random] is an explicit stream of draws, threaded through the
      generator in the order the source consumes them;
    - [Math.floor(SEA_LEVEL + noise(x, z))] is trigonometric floating point
      code; the generator is parametric in that height function. *)

From Stdlib Require Import ZArith QArith Qround Qabs Lia Lqa Ascii.
From Stdlib Require Import PrimFloat FloatOps SpecFloat.
From stdpp Require Import gmap strings pretty list fin_maps.

Open Scope Z_scope.

(** ** Data model ([types.ts]) *)

Inductive BlockType := grass | dirt | stone | wood | sand | snow | water.

Record Position := { px : Z; py : Z; pz : Z }.

Record Block := { position : Position; type : BlockType }.

Record WaterBlock := { wposition : Position; level : Q }.

Record Chunk := {
  chunk_x : Z;
  chunk_z : Z;
  blocks : gmap string Block;
  waterBlocks : gmap string WaterBlock;
  generated : bool
}.

Record ChunkCoord := { coord_x : Z; coord_z : Z }.

(** ** ChunkManager constants *)

Definition CHUNK_SIZE : Z := 8.
Definition RENDER_DISTANCE : Z := 3.
Definition SEA_LEVEL : Z := 20.
Definition MAX_HEIGHT : Z := 400.

(** [Math.floor(worldX / CHUNK_SIZE)] on numbers. *)
Definition getChunkCoordQ (worldX worldZ : Q) : ChunkCoord :=
  {| coord_x := Qfloor (worldX / inject_Z CHUNK_SIZE);
     coord_z := Qfloor (worldZ / inject_Z CHUNK_SIZE) |}.

(** [getChunkCoord] on block coordinates. *)
Definition getChunkCoord (worldX worldZ : Z) : ChunkCoord :=
  getChunkCoordQ (inject_Z worldX) (inject_Z worldZ).

(** The template literal [`${chunkX},${chunkZ}`]. *)
Definition getChunkKey (chunkX chunkZ : Z) : string :=
  pretty chunkX +:+ "," +:+ pretty chunkZ.

(** The template literal [`${x},${y},${z}`] used for block and water keys. *)
Definition positionKey (x y z : Z) : string :=
  pretty x +:+ "," +:+ pretty y +:+ "," +:+ pretty z.

Definition keyOf (p : Position) : string := positionKey (px p) (py p) (pz p).

(** ** The random source

    [Math.random()] returns the next draw and advances the stream. *)

Definition RandomSource := nat → Q.

Definition random (rng : RandomSource) : Q * RandomSource :=
  (rng 0%nat, λ n, rng (S n)).

Definition Qltb (a b : Q) : bool := negb (Qle_bool b a).

(** ** Loops

    [for (let i = lo; i <= hi; i++) body] *)

Definition forRange {S : Type} (lo hi : Z) (body : Z → S → S) (s : S) : S :=
  foldl (λ acc i, body i acc) s (seqZ lo (hi - lo + 1)).

(** ** Chunk mutation helpers *)

Definition setBlockInChunk (chunk : Chunk) (worldX worldY worldZ : Z)
    (t : BlockType) : Chunk :=
  let key := positionKey worldX worldY worldZ in
  {| chunk_x := chunk_x chunk; chunk_z := chunk_z chunk;
     blocks := <[key := {| position := {| px := worldX; py := worldY; pz := worldZ |};
                           type := t |}]> (blocks chunk);
     waterBlocks := waterBlocks chunk;
     generated := generated chunk |}.

Definition setWaterBlockInChunk (chunk : Chunk) (worldX worldY worldZ : Z)
    (lvl : Q) : Chunk :=
  let key := positionKey worldX worldY worldZ in
  {| chunk_x := chunk_x chunk; chunk_z := chunk_z chunk;
     blocks := blocks chunk;
     waterBlocks := <[key := {| wposition := {| px := worldX; py := worldY; pz := worldZ |};
                                level := lvl |}]> (waterBlocks chunk);
     generated := generated chunk |}.

(** ** Terrain generation *)

Section Generation.

(** [noiseHeight x z] stands for [Math.floor(SEA_LEVEL + noise(x, z))]. *)
Variable noiseHeight : Z → Z → Z.

Definition clampHeight (height : Z) : Z := Z.max 0 (Z.min MAX_HEIGHT height).

(** The material of the terrain block at height [y] of a column whose
    clamped height is [clampedHeight]. *)
Definition terrainType (y clampedHeight : Z) : BlockType :=
  if y =? clampedHeight then
    if clampedHeight >? SEA_LEVEL + 160 then snow
    else if clampedHeight >? SEA_LEVEL + 60 then stone
    else if clampedHeight <=? SEA_LEVEL then sand
    else grass
  else if (y >=? clampedHeight - 4) && (clampedHeight >? SEA_LEVEL) then
    (if clampedHeight <=? SEA_LEVEL + 1 then sand else dirt)
  else stone.

(** One cell of the canopy: a draw decides whether the leaf is placed, a
    second draw whether a leaf is stacked on top of it. *)
Definition placeLeaf (worldX worldZ top leafX leafZ : Z)
    (st : Chunk * RandomSource) : Chunk * RandomSource :=
  let '(chunk, rng) := st in
  let '(r, rng) := random rng in
  if Qltb r (7 # 10) && negb ((leafX =? worldX) && (leafZ =? worldZ)) then
    let chunk := setBlockInChunk chunk leafX (top + 1) leafZ grass in
    let '(r2, rng) := random rng in
    if Qltb r2 (5 # 10) then
      (setBlockInChunk chunk leafX (top + 2) leafZ grass, rng)
    else (chunk, rng)
  else (chunk, rng).

(** The tree of a selected column: trunk, then the 5x5 canopy. *)
Definition placeTree (worldX worldZ clampedHeight : Z)
    (st : Chunk * RandomSource) : Chunk * RandomSource :=
  let '(chunk, rng) := st in
  let '(r, rng) := random rng in
  let treeHeight := 6 + Qfloor (r * 4) in
  let chunk :=
    forRange (clampedHeight + 1) (clampedHeight + treeHeight)
      (λ treeY c, setBlockInChunk c worldX treeY worldZ wood) chunk in
  forRange (worldX - 2) (worldX + 2)
    (λ leafX, forRange (worldZ - 2) (worldZ + 2)
       (λ leafZ, placeLeaf worldX worldZ (clampedHeight + treeHeight) leafX leafZ))
    (chunk, rng).

(** The body of the two column loops of [generateChunk]. *)
Definition generateColumn (worldX worldZ : Z)
    (st : Chunk * RandomSource) : Chunk * RandomSource :=
  let '(chunk, rng) := st in
  let height := noiseHeight worldX worldZ in
  let clampedHeight := clampHeight height in
  let chunk :=
    forRange 0 clampedHeight
      (λ y c, setBlockInChunk c worldX y worldZ (terrainType y clampedHeight))
      chunk in
  let chunk :=
    if clampedHeight <? SEA_LEVEL then
      forRange (clampedHeight + 1) SEA_LEVEL
        (λ y c, setWaterBlockInChunk c worldX y worldZ 1) chunk
    else chunk in
  if (clampedHeight >? SEA_LEVEL + 2) && (clampedHeight <? SEA_LEVEL + 40) then
    let '(r, rng') := random rng in
    if Qltb r (3 # 100) then placeTree worldX worldZ clampedHeight (chunk, rng')
    else (chunk, rng')
  else (chunk, rng).

Definition emptyChunk (chunkX chunkZ : Z) (ready : bool) : Chunk :=
  {| chunk_x := chunkX; chunk_z := chunkZ; blocks := ∅; waterBlocks := ∅;
     generated := ready |}.

(** [generateChunk].  Nothing in the [try] block raises (map updates,
    arithmetic and [Math.random] only), so the [catch] branch, which
    would return an empty chunk with [generated: false], is never taken
    and has no counterpart here. *)
Definition generateChunk (chunkX chunkZ : Z) (rng : RandomSource)
    : Chunk * RandomSource :=
  let startX := chunkX * CHUNK_SIZE in
  let startZ := chunkZ * CHUNK_SIZE in
  forRange 0 (CHUNK_SIZE - 1)
    (λ localX, forRange 0 (CHUNK_SIZE - 1)
       (λ localZ, generateColumn (startX + localX) (startZ + localZ)))
    (emptyChunk chunkX chunkZ true, rng).

End Generation.

(** ** The chunk cache

    The state of a [ChunkManager] is its [chunks] map.  Chunk objects are
    shared between the map and the callers that mutate them; a mutation
    through the object is written as an update of the map entry. *)

Section Store.

Variable noiseHeight : Z → Z → Z.

(** [getOrGenerateChunk].  The timer the source arms after a generation
    sets [generated] to [true] again 100ms later; [generateChunk] already
    returns the chunk with [generated: true], so it changes nothing. *)
Definition getOrGenerateChunk (chunkX chunkZ : Z)
    (st : gmap string Chunk * RandomSource)
    : Chunk * (gmap string Chunk * RandomSource) :=
  let '(chunks, rng) := st in
  let key := getChunkKey chunkX chunkZ in
  match chunks !! key with
  | Some chunk => (chunk, (chunks, rng))
  | None =>
      let '(chunk, rng) := generateChunk noiseHeight chunkX chunkZ rng in
      (chunk, (<[key := chunk]> chunks, rng))
  end.

(** [updateLoadedChunks]: load the square around the player, then drop
    every cached chunk whose key was not visited. *)
Definition updateLoadedChunks (playerX playerZ : Q)
    (st : gmap string Chunk * RandomSource)
    : gmap string Chunk * RandomSource :=
  let playerChunk := getChunkCoordQ playerX playerZ in
  let xlo := coord_x playerChunk - RENDER_DISTANCE in
  let xhi := coord_x playerChunk + RENDER_DISTANCE in
  let zlo := coord_z playerChunk - RENDER_DISTANCE in
  let zhi := coord_z playerChunk + RENDER_DISTANCE in
  let '(loadedChunks, (chunks, rng)) :=
    forRange xlo xhi
      (λ x, forRange zlo zhi
         (λ z (acc : gset string * (gmap string Chunk * RandomSource)),
            let '(loaded, st) := acc in
            ({[getChunkKey x z]} ∪ loaded, (getOrGenerateChunk x z st).2)))
      (∅, st) in
  (filter (λ kv, kv.1 ∈ loadedChunks) chunks, rng).

(** [getAllLoadedBlocks]: the blocks of the chunks marked generated. *)
Definition getAllLoadedBlocks (chunks : gmap string Chunk) : list Block :=
  kc ← map_to_list chunks;
  if generated kc.2 then (map_to_list (blocks kc.2)).*2 else [].

Definition getAllLoadedWaterBlocks (chunks : gmap string Chunk)
    : list WaterBlock :=
  kc ← map_to_list chunks;
  if generated kc.2 then (map_to_list (waterBlocks kc.2)).*2 else [].

Definition isWater (t : BlockType) : bool :=
  match t with water => true | _ => false end.

(** [placeBlock] *)
Definition placeBlock (p : Position) (t : BlockType)
    (st : gmap string Chunk * RandomSource)
    : gmap string Chunk * RandomSource :=
  if (py p <? 0) || (py p >? MAX_HEIGHT + 20) then st
  else if isWater t then st
  else
    let chunkCoord := getChunkCoord (px p) (pz p) in
    let '(chunk, (chunks, rng)) :=
      getOrGenerateChunk (coord_x chunkCoord) (coord_z chunkCoord) st in
    let waterKey := keyOf p in
    let blockKey := keyOf p in
    let chunk :=
      {| chunk_x := chunk_x chunk; chunk_z := chunk_z chunk;
         blocks := <[blockKey := {| position := p; type := t |}]> (blocks chunk);
         waterBlocks := delete waterKey (waterBlocks chunk);
         generated := generated chunk |} in
    (<[getChunkKey (coord_x chunkCoord) (coord_z chunkCoord) := chunk]> chunks,
     rng).

(** [removeBlock] *)
Definition removeBlock (p : Position) (chunks : gmap string Chunk)
    : gmap string Chunk :=
  let chunkCoord := getChunkCoord (px p) (pz p) in
  let key := getChunkKey (coord_x chunkCoord) (coord_z chunkCoord) in
  match chunks !! key with
  | None => chunks
  | Some chunk =>
      let blockKey := keyOf p in
      let blocks' := delete blockKey (blocks chunk) in
      let water' :=
        if py p <=? SEA_LEVEL then
          <[keyOf p := {| wposition := p; level := 1 |}]> (waterBlocks chunk)
        else waterBlocks chunk in
      <[key := {| chunk_x := chunk_x chunk; chunk_z := chunk_z chunk;
                  blocks := blocks'; waterBlocks := water';
                  generated := generated chunk |}]> chunks
  end.

Definition clear (chunks : gmap string Chunk) : gmap string Chunk := ∅.

End Store.

(** ** World snapshots

    [getWorldData] returns, and [loadWorldData] receives, an untyped value
    ([any]).  The payload type below covers the well-formed snapshots and
    the malformed shapes a parsed save can have: a field holds either what
    it should or some other JavaScript value, a list may hold elements
    that are not [[key, value]] pairs, and a chunk record may be [null]. *)

Inductive JsValue :=
  | JsUndefined
  | JsNull
  | JsBool (b : bool)
  | JsNumber (n : Z)
  | JsString (s : string)
  | JsObject.

(** [ToBoolean] *)
Definition truthy (v : JsValue) : bool :=
  match v with
  | JsUndefined | JsNull => false
  | JsBool b => b
  | JsNumber n => negb (n =? 0)
  | JsString s => negb (String.eqb s "")
  | JsObject => true
  end.

(** [a || b] *)
Definition jsOr (a b : JsValue) : JsValue := if truthy a then a else b.

(** A list element that the destructuring [([key, value]) => ...] cannot
    take apart because it is not iterable. *)
Inductive NotIterable :=
  | NiUndefined
  | NiNull
  | NiBool (b : bool)
  | NiNumber (n : Z)
  | NiObject.

(** An element of a list of entries: a [[key, value]] pair, or a value
    that is not iterable. *)
Inductive Item (A : Type) :=
  | Pair (key : string) (value : A)
  | Other (v : NotIterable).
Arguments Pair {A} key value.
Arguments Other {A} v.

(** A field that should hold a list of [[key, value]] pairs: such a list
    ([EntryList], what [getWorldData] writes), a list some of whose
    elements may not be pairs ([ItemList]), or a value that is not a list
    at all ([NotAList]). *)
Inductive EntriesField (A : Type) :=
  | EntryList (entries : list (string * A))
  | NotAList (v : JsValue)
  | ItemList (items : list (Item A)).
Arguments EntryList {A} entries.
Arguments NotAList {A} v.
Arguments ItemList {A} items.

Record ChunkData := {
  data_x : Z;
  data_z : Z;
  data_blocks : EntriesField Block;
  data_waterBlocks : EntriesField WaterBlock;
  data_generated : JsValue
}.

(** The argument of [loadWorldData]: a value without fields of its own
    ([null], [undefined], a number, ...); an object whose [chunks] field
    is missing or maps chunk keys to chunk records ([Data]); or, more
    generally, an object whose [chunks] field maps each key to a chunk
    record or to [null] or [undefined] ([DataRecords], with [None] for
    the latter two). *)
Inductive WorldData :=
  | NoData (v : JsValue)
  | Data (chunksField : option (list (string * ChunkData)))
  | DataRecords (records : list (string * option ChunkData)).

Inductive Completion := Normal | Throw (error : string).

(** The record [getWorldData] writes for the chunk cached under a key. *)
Definition chunkRecord (kc : string * Chunk) : string * ChunkData :=
  (kc.1, {| data_x := chunk_x kc.2; data_z := chunk_z kc.2;
            data_blocks := EntryList (map_to_list (blocks kc.2));
            data_waterBlocks := EntryList (map_to_list (waterBlocks kc.2));
            data_generated := JsBool (generated kc.2) |}).

(** [getWorldData] *)
Definition getWorldData (chunks : gmap string Chunk) : WorldData :=
  Data (Some (chunkRecord <$> map_to_list chunks)).

(** The [forEach] over a list some of whose elements may not be pairs:
    the callback destructures each element, which raises a [TypeError] at
    the first one that is not iterable. *)
Fixpoint loadItems {A} (items : list (Item A)) (m : gmap string A)
    : gmap string A + string :=
  match items with
  | [] => inl m
  | Pair key value :: rest => loadItems rest (<[key := value]> m)
  | Other _ :: _ => inr "TypeError: the list element is not iterable"
  end.

(** [field.forEach(([k, v]) => map.set(k, v))] guarded by [if (field)]:
    a falsy field is skipped, a list is copied entry by entry, and any
    other value has no [forEach] method, which raises a [TypeError]. *)
Definition loadEntries {A} (field : EntriesField A) : gmap string A + string :=
  match field with
  | EntryList entries =>
      inl (foldl (λ m (kv : string * A), <[kv.1 := kv.2]> m) ∅ entries)
  | NotAList v =>
      if truthy v then inr "TypeError: forEach is not a function" else inl ∅
  | ItemList items => loadItems items ∅
  end.

(** The chunk object built for one record of the payload. *)
Definition loadChunk (chunkData : ChunkData) : Chunk + string :=
  match loadEntries (data_blocks chunkData) with
  | inr e => inr e
  | inl bs =>
      match loadEntries (data_waterBlocks chunkData) with
      | inr e => inr e
      | inl ws =>
          inl {| chunk_x := data_x chunkData; chunk_z := data_z chunkData;
                 blocks := bs; waterBlocks := ws;
                 generated := truthy (jsOr (data_generated chunkData) (JsBool true)) |}
      end
  end.

(** The [forEach] over [Object.entries(data.chunks)]: an exception leaves
    the loop with the chunks stored so far. *)
Fixpoint loadChunks (entries : list (string * ChunkData))
    (chunks : gmap string Chunk) : gmap string Chunk * Completion :=
  match entries with
  | [] => (chunks, Normal)
  | (key, chunkData) :: rest =>
      match loadChunk chunkData with
      | inl chunk => loadChunks rest (<[key := chunk]> chunks)
      | inr e => (chunks, Throw e)
      end
  end.

(** The same loop over records that may be [null] or [undefined]: the
    first thing the callback does with a record is to read [chunkData.x],
    which raises a [TypeError] on such a record. *)
Fixpoint loadRecords (records : list (string * option ChunkData))
    (chunks : gmap string Chunk) : gmap string Chunk * Completion :=
  match records with
  | [] => (chunks, Normal)
  | (key, None) :: _ =>
      (chunks, Throw "TypeError: cannot read property x of a null record")
  | (key, Some chunkData) :: rest =>
      match loadChunk chunkData with
      | inl chunk => loadRecords rest (<[key := chunk]> chunks)
      | inr e => (chunks, Throw e)
      end
  end.

(** [ChunkManager.loadWorldData] *)
Definition loadWorldData (data : WorldData) (chunks : gmap string Chunk)
    : gmap string Chunk * Completion :=
  match data with
  | NoData _ => (chunks, Normal)
  | Data None => (chunks, Normal)
  | Data (Some entries) => loadChunks entries ∅
  | DataRecords records => loadRecords records ∅
  end.

(** ** WorldManager

    The wrapper forwards to the chunk manager; only its restore entry point
    adds behaviour: a falsy payload starts a freshly generated world. *)

Definition dataTruthy (data : WorldData) : bool :=
  match data with
  | NoData v => truthy v
  | Data _ | DataRecords _ => true
  end.

Module WorldManager.
Section WorldManager.

Variable noiseHeight : Z → Z → Z.

(** [generateTerrain] *)
Definition generateTerrain (st : gmap string Chunk * RandomSource)
    : gmap string Chunk * RandomSource :=
  updateLoadedChunks noiseHeight 0 0 st.

(** [WorldManager.loadWorldData] *)
Definition loadWorldData (data : WorldData)
    (st : gmap string Chunk * RandomSource)
    : (gmap string Chunk * RandomSource) * Completion :=
  if dataTruthy data then
    let '(chunks, c) := loadWorldData data st.1 in ((chunks, st.2), c)
  else (generateTerrain st, Normal).

End WorldManager.
End WorldManager.

(** ** Sessions

    The operations a session performs on the chunk cache, and the state
    they lead to from the empty cache of a new [ChunkManager]. *)

Inductive Operation :=
  | OpGenerate (chunkX chunkZ : Z)
  | OpUpdate (playerX playerZ : Q)
  | OpPlace (p : Position) (t : BlockType)
  | OpRemove (p : Position)
  | OpLoad (data : WorldData)
  | OpClear.

(** The operations that build a world without restoring a payload. *)
Definition isBuildOp (op : Operation) : bool :=
  match op with
  | OpLoad _ => false
  | _ => true
  end.

Section Session.

Variable noiseHeight : Z → Z → Z.

(** An exception raised by a restore reaches the caller; the cache keeps
    what the restore had stored by then. *)
Definition step (st : gmap string Chunk * RandomSource) (op : Operation)
    : gmap string Chunk * RandomSource :=
  match op with
  | OpGenerate chunkX chunkZ => (getOrGenerateChunk noiseHeight chunkX chunkZ st).2
  | OpUpdate playerX playerZ => updateLoadedChunks noiseHeight playerX playerZ st
  | OpPlace p t => placeBlock noiseHeight p t st
  | OpRemove p => (removeBlock p st.1, st.2)
  | OpLoad data => ((loadWorldData data st.1).1, st.2)
  | OpClear => (clear st.1, st.2)
  end.

Definition run (ops : list Operation) (rng : RandomSource)
    : gmap string Chunk * RandomSource :=
  foldl step (∅, rng) ops.

End Session.

(** ** Doubles

    The numbers of the source are IEEE binary64 values.  The collision
    test below computes with them: [float] is the kernel's binary64 type
    and its operations round to nearest even, as JavaScript's do. *)

(** The double nearest to an integer. *)
Definition doubleOfZ (n : Z) : float :=
  SF2Prim (binary_normalize prec emax n 0 false).

(** The double a rational stands for: the quotient of its numerator and
    denominator, rounded once.  This is the double nearest to the
    rational when both are below [2^53] (a decimal literal of up to 15
    digits, such as [0.6]) or when the denominator is a power of two (a
    rational that is itself a double). *)
Definition double (q : Q) : float :=
  (doubleOfZ (Qnum q) / doubleOfZ (Z.pos (Qden q)))%float.

(** [Math.floor] of a finite double, as an integer. *)
Definition Math_floor (f : float) : Z :=
  match Prim2SF f with
  | S754_finite s m e =>
      let n := if s then Z.neg m else Z.pos m in
      if 0 <=? e then n * 2 ^ e else n / 2 ^ (- e)
  | _ => 0
  end.

(** ** CollisionManager *)

(** A position or a velocity handed to the collision manager. *)
Record Vector3 := { vx : Q; vy : Q; vz : Q }.

(** A [THREE.Vector3] computed by the box functions: its components are
    doubles. *)
Record Vector3d := { fx : float; fy : float; fz : float }.

(** [THREE.Box3] *)
Record Box3 := { box_min : Vector3d; box_max : Vector3d }.

(** [Box3.intersectsBox] of three.js: the boxes are disjoint exactly when
    they are separated along one axis; touching boxes intersect. *)
Definition intersectsBox (this box : Box3) : bool :=
  negb (PrimFloat.ltb (fx (box_max box)) (fx (box_min this))
        || PrimFloat.ltb (fx (box_max this)) (fx (box_min box))
        || PrimFloat.ltb (fy (box_max box)) (fy (box_min this))
        || PrimFloat.ltb (fy (box_max this)) (fy (box_min box))
        || PrimFloat.ltb (fz (box_max box)) (fz (box_min this))
        || PrimFloat.ltb (fz (box_max this)) (fz (box_min box))).

Definition BLOCK_SIZE : Q := 5 # 10.
Definition PLAYER_HEIGHT : Q := 1.
Definition PLAYER_WIDTH : Q := 6 # 10.

(** [updateBlocks]: the index is rebuilt from the list. *)
Definition updateBlocks (bs : list Block) : gmap string Block :=
  foldl (λ m b, <[keyOf (position b) := b]> m) ∅ bs.

Definition getPlayerBoundingBox (pos : Vector3) : Box3 :=
  let halfWidth := (double PLAYER_WIDTH / 2)%float in
  {| box_min := {| fx := double (vx pos) - halfWidth;
                   fy := double (vy pos) - double PLAYER_HEIGHT;
                   fz := double (vz pos) - halfWidth |};
     box_max := {| fx := double (vx pos) + halfWidth;
                   fy := double (vy pos);
                   fz := double (vz pos) + halfWidth |} |}%float.

Definition getBlockBoundingBox (x y z : Z) : Box3 :=
  let halfSize := (double BLOCK_SIZE / 2)%float in
  let worldX := (doubleOfZ x * double BLOCK_SIZE)%float in
  let worldY := (doubleOfZ y * double BLOCK_SIZE)%float in
  let worldZ := (doubleOfZ z * double BLOCK_SIZE)%float in
  {| box_min := {| fx := worldX - halfSize; fy := worldY - halfSize;
                   fz := worldZ - halfSize |};
     box_max := {| fx := worldX + halfSize; fy := worldY + halfSize;
                   fz := worldZ + halfSize |} |}%float.

(** [for (let i = lo; i <= hi; i++) if (test(i)) return true;] *)
Definition anyInRange (lo hi : Z) (test : Z → bool) : bool :=
  existsb test (seqZ lo (hi - lo + 1)).

Definition hasCollisionAtPosition (index : gmap string Block) (pos : Vector3)
    : bool :=
  let playerBox := getPlayerBoundingBox pos in
  let minBlockX := Math_floor (fx (box_min playerBox) / double BLOCK_SIZE) in
  let maxBlockX := Math_floor (fx (box_max playerBox) / double BLOCK_SIZE) in
  let minBlockY := Math_floor (fy (box_min playerBox) / double BLOCK_SIZE) in
  let maxBlockY := Math_floor (fy (box_max playerBox) / double BLOCK_SIZE) in
  let minBlockZ := Math_floor (fz (box_min playerBox) / double BLOCK_SIZE) in
  let maxBlockZ := Math_floor (fz (box_max playerBox) / double BLOCK_SIZE) in
  anyInRange minBlockX maxBlockX (λ x,
    anyInRange minBlockY maxBlockY (λ y,
      anyInRange minBlockZ maxBlockZ (λ z,
        bool_decide (is_Some (index !! positionKey x y z))
        && intersectsBox playerBox (getBlockBoundingBox x y z)))).

(** [checkCollision]: [correctedPosition] starts as the moved position and
    each axis is reset to its original value when its test position
    collides. *)
Definition checkCollision (index : gmap string Block)
    (pos velocity : Vector3) : Vector3 :=
  let newPosition :=
    {| vx := vx pos + vx velocity; vy := vy pos + vy velocity;
       vz := vz pos + vz velocity |}%Q in
  let originalPos := pos in
  let testPosX := {| vx := vx newPosition; vy := vy originalPos; vz := vz originalPos |} in
  let correctedX :=
    if hasCollisionAtPosition index testPosX then vx originalPos else vx newPosition in
  let testPosY := {| vx := correctedX; vy := vy newPosition; vz := vz originalPos |} in
  let correctedY :=
    if hasCollisionAtPosition index testPosY then vy originalPos else vy newPosition in
  let testPosZ := {| vx := correctedX; vy := correctedY; vz := vz newPosition |} in
  let correctedZ :=
    if hasCollisionAtPosition index testPosZ then vz originalPos else vz newPosition in
  {| vx := correctedX; vy := correctedY; vz := correctedZ |}.

(** The downward scan of [getGroundHeight]: [n] iterations left, the next
    one at height [y]. *)
Fixpoint scanDown (index : gmap string Block) (blockX blockZ : Z)
    (n : nat) (y : Z) : Q :=
  match n with
  | O => PLAYER_HEIGHT
  | S n' =>
      if bool_decide (is_Some (index !! positionKey blockX y blockZ)) then
        (inject_Z (y + 1) * BLOCK_SIZE + PLAYER_HEIGHT)%Q
      else scanDown index blockX blockZ n' (y - 1)
  end.

(** [getGroundHeight]: [for (let y = 200; y >= -10; y--)], 211 iterations. *)
Definition getGroundHeight (index : gmap string Block) (x z : Q) : Q :=
  scanDown index (Qfloor (x / BLOCK_SIZE)) (Qfloor (z / BLOCK_SIZE)) 211 200.

(** ** Sample inputs

    The values of [Math.floor(SEA_LEVEL + noise(x, z))] on the columns
    [-8 <= x <= 7], [0 <= z <= 8], one row per [x].  The noise is even in
    [z], so the table covers [-8 <= z <= 8]: the chunks (-1,-1), (-1,0),
    (0,-1) and (0,0).  Elsewhere the sample terrain is flat at sea level. *)
Definition sampleHeights : list (list Z) :=
  [ [-7; -7; -7; -7; -7; -6; -6; -5; -4];
    [-4; -4; -4; -4; -4; -3; -3; -2; -1];
    [-1; -1; -1; -1; 0; 0; 0; 1; 1];
    [2; 2; 2; 3; 3; 3; 3; 4; 4];
    [6; 6; 6; 6; 6; 6; 7; 7; 7];
    [9; 9; 9; 9; 9; 10; 10; 10; 10];
    [13; 13; 13; 13; 13; 13; 13; 13; 13];
    [16; 16; 16; 16; 16; 16; 16; 16; 16];
    [20; 20; 20; 20; 20; 20; 20; 20; 20];
    [23; 23; 23; 23; 23; 23; 23; 23; 23];
    [26; 26; 26; 26; 26; 26; 26; 26; 26];
    [30; 30; 30; 30; 30; 29; 29; 29; 29];
    [33; 33; 33; 33; 33; 33; 32; 32; 32];
    [37; 37; 37; 36; 36; 36; 36; 35; 35];
    [40; 40; 40; 40; 39; 39; 39; 38; 38];
    [43; 43; 43; 43; 43; 42; 42; 41; 40] ].

Definition sampleHeight (x z : Z) : Z :=
  if x <? -8 then SEA_LEVEL
  else
    match sampleHeights !! Z.to_nat (x + 8) with
    | Some row => default SEA_LEVEL (row !! Z.to_nat (Z.abs z))
    | None => SEA_LEVEL
    end.

(** A random source whose first draws are listed and whose later draws are
    all [rest]. *)
Definition drawsThen (draws : list Q) (rest : Q) : RandomSource :=
  λ n, default rest (draws !! n).

(** A short session on the sample terrain. *)
Definition sampleSession : list Operation :=
  [ OpPlace {| px := 3; py := 25; pz := 3 |} stone;
    OpRemove {| px := 0; py := 10; pz := 0 |};
    OpPlace {| px := 0; py := 10; pz := 0 |} dirt;
    OpRemove {| px := 3; py := 25; pz := 3 |} ].

(** A save whose second chunk record holds a number where the list of
    block entries should be. *)
Definition corruptSave : WorldData :=
  Data (Some
    [ ("0,0"%string,
       {| data_x := 0; data_z := 0; data_blocks := EntryList [];
          data_waterBlocks := EntryList []; data_generated := JsBool true |});
      ("1,0"%string,
       {| data_x := 1; data_z := 0; data_blocks := NotAList (JsNumber 5);
          data_waterBlocks := EntryList []; data_generated := JsBool true |}) ]).

(** A stone block at block coordinate (0,5,0), and a block at the origin. *)
Definition stoneAt050 : Block :=
  {| position := {| px := 0; py := 5; pz := 0 |}; type := stone |}.

Definition originBlock : Block :=
  {| position := {| px := 0; py := 0; pz := 0 |}; type := stone |}.

(** The draws that select the first eligible column of chunk (0,0) for a
    tree of height 8; the canopy draws that follow are all 0.5. *)
Definition treeDraws : RandomSource := drawsThen [1 # 100; 1 # 2] (1 # 2).

(** The canopy leaf that generation stores in chunk (0,0). *)
Definition strayLeaf : Block :=
  {| position := {| px := -1; py := 32; pz := -2 |}; type := grass |}.

(** A session that loads chunk (0,0) and the chunk of the stray leaf and
    then removes at the position of the leaf. *)
Definition straySession : list Operation :=
  [ OpGenerate 0 0; OpGenerate (-1) (-1);
    OpRemove {| px := -1; py := 32; pz := -2 |} ].

(** ** The remaining helpers of ChunkManager *)

(** [getLocalCoord]: [((worldCoord % CHUNK_SIZE) + CHUNK_SIZE) % CHUNK_SIZE].
    The [%] of JavaScript takes the sign of the dividend ([Z.rem]). *)
Definition getLocalCoord (worldCoord : Z) : Z :=
  Z.rem (Z.rem worldCoord CHUNK_SIZE + CHUNK_SIZE) CHUNK_SIZE.

(** ** WorldManager.updateWorld

    The wrapper remembers the position of the last streaming refresh. *)

Record WorldManagerState := {
  chunkManager : gmap string Chunk;
  lastPlayerPosition : Q * Q
}.

(** The constructor: an empty chunk manager, last position (0, 0). *)
Definition newWorldManager : WorldManagerState :=
  {| chunkManager := ∅; lastPlayerPosition := (0, 0)%Q |}.

Section UpdateWorld.

Variable noiseHeight : Z → Z → Z.

(** [generateTerrain] on the wrapper's state: the reference position is
    not touched. *)
Definition startTerrain (st : WorldManagerState * RandomSource)
    : WorldManagerState * RandomSource :=
  let '(chunks, rng) :=
    WorldManager.generateTerrain noiseHeight (chunkManager st.1, st.2) in
  ({| chunkManager := chunks; lastPlayerPosition := lastPlayerPosition st.1 |}, rng).

(** [updateWorld]: refresh only after a move of more than 4 blocks along
    one axis since the last refresh. *)
Definition updateWorld (st : WorldManagerState * RandomSource)
    (player : Q * Q) : WorldManagerState * RandomSource :=
  let '(playerX, playerZ) := player in
  let dx := Qabs (playerX - (lastPlayerPosition st.1).1) in
  let dz := Qabs (playerZ - (lastPlayerPosition st.1).2) in
  if Qltb 4 dx || Qltb 4 dz then
    let '(chunks, rng) :=
      updateLoadedChunks noiseHeight playerX playerZ (chunkManager st.1, st.2) in
    ({| chunkManager := chunks; lastPlayerPosition := (playerX, playerZ) |}, rng)
  else st.

End UpdateWorld.

(** ** ControlManager: the vertical part of a tick

    [updateMovement] first composes the horizontal velocity from the camera
    direction and the movement keys (normalised, scaled by
    [MOVE_SPEED * delta]); that vector is an input here.  What follows it in
    the source (jump, flight, gravity, collision, grounding) is embedded. *)

Record ControlState := {
  cameraPosition : Vector3;
  verticalVelocity : Q;
  isOnGround : bool
}.

Definition GRAVITY : Q := - 20.
Definition JUMP_FORCE : Q := 8.
Definition MOVE_SPEED : Q := 15.

Definition updateMovement (index : gmap string Block) (delta : Q)
    (keySpace keyShiftLeft : bool) (horizontal : Q * Q) (s : ControlState)
    : ControlState :=
  let originalPosition := cameraPosition s in
  let jumps := keySpace && isOnGround s in
  let verticalVelocity0 := if jumps then JUMP_FORCE else verticalVelocity s in
  let '(verticalVelocity1, velocityY) :=
    (if keyShiftLeft && keySpace then (0, MOVE_SPEED * delta)
     else if keyShiftLeft then (0, - MOVE_SPEED * delta)
     else
       let v := verticalVelocity0 + GRAVITY * delta in
       (v, v * delta))%Q in
  let velocity := {| vx := horizontal.1; vy := velocityY; vz := horizontal.2 |} in
  let newPosition := checkCollision index originalPosition velocity in
  let groundHeight := getGroundHeight index (vx newPosition) (vz newPosition) in
  if Qle_bool (vy newPosition) groundHeight && Qle_bool verticalVelocity1 0 then
    {| cameraPosition :=
         {| vx := vx newPosition; vy := groundHeight; vz := vz newPosition |};
       verticalVelocity := 0%Q;
       isOnGround := true |}
  else
    {| cameraPosition := newPosition;
       verticalVelocity := verticalVelocity1;
       isOnGround := false |}.

(** [update]: one tick at the fixed step of 1/60. *)
Definition update (index : gmap string Block) (keySpace keyShiftLeft : bool)
    (horizontal : Q * Q) (s : ControlState) : ControlState :=
  updateMovement index (1 # 60) keySpace keyShiftLeft horizontal s.

(** A session that places a block and digs below sea level. *)
Definition digSession : list Operation :=
  [ OpPlace {| px := 3; py := 25; pz := 3 |} stone;
    OpRemove {| px := 0; py := 10; pz := 0 |} ].


(** A block at the origin and a taller neighbour one cell along +X. *)
Definition stepIndex : gmap string Block :=
  updateBlocks
    [ originBlock;
      {| position := {| px := 1; py := 3; pz := 0 |}; type := stone |} ].

(** What the game loop and the click handler ask of the world manager:
    [updateWorld] with the observer position, [placeBlock], [removeBlock]. *)
Inductive WorldAction :=
  | ActMove (playerX playerZ : Q)
  | ActPlace (p : Position) (t : BlockType)
  | ActRemove (p : Position).

Definition worldStep (noiseHeight : Z → Z → Z)
    (st : WorldManagerState * RandomSource) (a : WorldAction)
    : WorldManagerState * RandomSource :=
  match a with
  | ActMove playerX playerZ => updateWorld noiseHeight st (playerX, playerZ)
  | ActPlace p t =>
      let '(chunks, rng) := placeBlock noiseHeight p t (chunkManager st.1, st.2) in
      ({| chunkManager := chunks; lastPlayerPosition := lastPlayerPosition st.1 |},
       rng)
  | ActRemove p =>
      ({| chunkManager := removeBlock p (chunkManager st.1);
          lastPlayerPosition := lastPlayerPosition st.1 |}, st.2)
  end.

(** ** Predicates used by the statements *)

(** A string without a comma: the rendering of a number. *)
Fixpoint commaFree (s : string) : bool :=
  match s with
  | EmptyString => true
  | String c s' => negb (Ascii.eqb c ","%char) && commaFree s'
  end.

(** [Math.random] draws lie in [0, 1). *)
Definition unitDraws (rng : RandomSource) : Prop :=
  ∀ n, (0 <= rng n)%Q ∧ (rng n < 1)%Q.

(** The position lies in the footprint of chunk [(chunkX, chunkZ)]. *)
Definition inChunk (chunkX chunkZ : Z) (p : Position) : Prop :=
  getChunkCoord (px p) (pz p) = {| coord_x := chunkX; coord_z := chunkZ |}.

(** What a generation pass over chunk [(chunkX, chunkZ)] stores: terrain
    inside the footprint up to the column height, and tree blocks, which
    all lie above [SEA_LEVEL + 3]. *)
Definition GenBlocksOk (noiseHeight : Z → Z → Z) (chunkX chunkZ : Z)
    (m : gmap string Block) : Prop :=
  ∀ k b, m !! k = Some b →
    k = keyOf (position b) ∧
    ((inChunk chunkX chunkZ (position b) ∧
      py (position b) ≤ clampHeight (noiseHeight (px (position b)) (pz (position b))))
     ∨ SEA_LEVEL + 4 ≤ py (position b)).

Definition GenWaterOk (noiseHeight : Z → Z → Z) (chunkX chunkZ : Z)
    (m : gmap string WaterBlock) : Prop :=
  ∀ k w, m !! k = Some w →
    k = keyOf (wposition w) ∧
    inChunk chunkX chunkZ (wposition w) ∧
    clampHeight (noiseHeight (px (wposition w)) (pz (wposition w))) < py (wposition w) ∧
    py (wposition w) ≤ SEA_LEVEL ∧
    level w = 1%Q.

Definition GenChunkOk (noiseHeight : Z → Z → Z) (chunkX chunkZ : Z)
    (c : Chunk) : Prop :=
  GenBlocksOk noiseHeight chunkX chunkZ (blocks c) ∧
  GenWaterOk noiseHeight chunkX chunkZ (waterBlocks c) ∧
  generated c = true.

(** The key under which the chunk of a position is cached. *)
Definition homeKey (p : Position) : string :=
  let chunkCoord := getChunkCoord (px p) (pz p) in
  getChunkKey (coord_x chunkCoord) (coord_z chunkCoord).

(** No key of the chunk holds both a block and water. *)
Definition ChunkExclusive (c : Chunk) : Prop :=
  ∀ k, blocks c !! k = None ∨ waterBlocks c !! k = None.

(** The invariant of a cache built by generation, placement and removal:
    every entry is stored under the key of its own position; water lies at
    or below sea level in the chunk of its position; a block lies in the
    chunk of its position unless it is above sea level. *)
Definition ChunkOk (chunkKey : string) (c : Chunk) : Prop :=
  (∀ k b, blocks c !! k = Some b →
     k = keyOf (position b) ∧
     (chunkKey = homeKey (position b) ∨ SEA_LEVEL < py (position b))) ∧
  (∀ k w, waterBlocks c !! k = Some w →
     k = keyOf (wposition w) ∧ chunkKey = homeKey (wposition w) ∧
     py (wposition w) ≤ SEA_LEVEL) ∧
  ChunkExclusive c.

Definition StoreOk (chunks : gmap string Chunk) : Prop :=
  ∀ chunkKey c, chunks !! chunkKey = Some c → ChunkOk chunkKey c.

(** Exclusivity over the whole cache: no key is a block key of one cached
    chunk and a water key of a cached chunk (the same or another). *)
Definition Exclusive (chunks : gmap string Chunk) : Prop :=
  ∀ key1 key2 c1 c2 k,
    chunks !! key1 = Some c1 → chunks !! key2 = Some c2 →
    blocks c1 !! k = None ∨ waterBlocks c2 !! k = None.

Definition AllGenerated (chunks : gmap string Chunk) : Prop :=
  ∀ chunkKey c, chunks !! chunkKey = Some c → generated c = true.

(** The state of a generation pass: the chunk under construction and the
    random source. *)
Definition GenStateOk (noiseHeight : Z → Z → Z) (chunkX chunkZ : Z)
    (st : Chunk * RandomSource) : Prop :=
  GenChunkOk noiseHeight chunkX chunkZ st.1 ∧ unitDraws st.2.

(** The chunk holds full-level water at the position. *)
Definition hasWater (p : Position) (c : Chunk) : Prop :=
  waterBlocks c !! keyOf p = Some {| wposition := p; level := 1 |}.

(** The invariant of a session state. *)
Definition WorldOk (st : gmap string Chunk * RandomSource) : Prop :=
  StoreOk st.1 ∧ unitDraws st.2.

(** ** Predicates for the wider coverage *)

(** The chunk coordinate lies in the square of radius [RENDER_DISTANCE]
    around a centre. *)
Definition inRenderSquare (centre : ChunkCoord) (chunkX chunkZ : Z) : Prop :=
  coord_x centre - RENDER_DISTANCE ≤ chunkX ≤ coord_x centre + RENDER_DISTANCE ∧
  coord_z centre - RENDER_DISTANCE ≤ chunkZ ≤ coord_z centre + RENDER_DISTANCE.

Definition isPair {A} (item : Item A) : bool :=
  match item with
  | Pair _ _ => true
  | Other _ => false
  end.

(** A field the restore can read: a list without an element that is not
    iterable, or a falsy value. *)
Definition entriesReadable {A} (field : EntriesField A) : bool :=
  match field with
  | EntryList _ => true
  | NotAList v => negb (truthy v)
  | ItemList items => forallb isPair items
  end.

Definition recordReadable (chunkData : ChunkData) : bool :=
  entriesReadable (data_blocks chunkData) &&
  entriesReadable (data_waterBlocks chunkData).

(** A record of the payload the restore can read: not [null] or
    [undefined], and with readable fields. *)
Definition recordLoads (record : option ChunkData) : bool :=
  match record with
  | Some chunkData => recordReadable chunkData
  | None => false
  end.

(** A payload whose chunk records are all objects, in its general form. *)
Definition objectRecords (entries : list (string * ChunkData))
    : list (string * option ChunkData) :=
  (λ kc, (kc.1, Some kc.2)) <$> entries.

(** A save with a [null] chunk record, and a save whose list of block
    entries holds a number. *)
Definition nullRecordSave : WorldData :=
  DataRecords [ ("0,0"%string, None) ].

Definition numberEntrySave : WorldData :=
  DataRecords
    [ ("0,0"%string,
       Some {| data_x := 0; data_z := 0;
               data_blocks := ItemList [Other (NiNumber 5)];
               data_waterBlocks := EntryList []; data_generated := JsBool true |}) ].

(** The test the innermost loop body of [hasCollisionAtPosition] applies
    to the cell [(i, j, k)], together with the bounds of the loops that
    reach it: the cell lies in the scanned range, is occupied, and its box
    intersects the observer's. *)
Definition collidesWith (index : gmap string Block) (pos : Vector3)
    (i j k : Z) : bool :=
  let playerBox := getPlayerBoundingBox pos in
  (Math_floor (fx (box_min playerBox) / double BLOCK_SIZE) <=? i)
  && (i <=? Math_floor (fx (box_max playerBox) / double BLOCK_SIZE))
  && (Math_floor (fy (box_min playerBox) / double BLOCK_SIZE) <=? j)
  && (j <=? Math_floor (fy (box_max playerBox) / double BLOCK_SIZE))
  && (Math_floor (fz (box_min playerBox) / double BLOCK_SIZE) <=? k)
  && (k <=? Math_floor (fz (box_max playerBox) / double BLOCK_SIZE))
  && bool_decide (is_Some (index !! positionKey i j k))
  && intersectsBox playerBox (getBlockBoundingBox i j k).

(** The lowest layer the collision scan visits for an observer whose
    ground probe found its highest block at height [y0]. *)
Definition feetLayer (y0 : Z) : Z :=
  Math_floor
    ((double (inject_Z (y0 + 1) * (5 # 10) + 1)%Q - double PLAYER_HEIGHT)
     / double BLOCK_SIZE).

(** The materials generation puts at the surface of a column. *)
Definition isSurfaceType (t : BlockType) : bool :=
  match t with
  | snow | stone | sand | grass => true
  | _ => false
  end.

(** What the blocks of a generation pass satisfy whatever the random
    draws: no block is water, wood lies above the surface of its column and
    dirt below it. *)
Definition GenTypesOk (noiseHeight : Z → Z → Z) (m : gmap string Block) : Prop :=
  ∀ k b, m !! k = Some b →
    k = keyOf (position b) ∧
    type b ≠ water ∧
    (type b = wood →
       clampHeight (noiseHeight (px (position b)) (pz (position b))) < py (position b)) ∧
    (type b = dirt →
       py (position b) < clampHeight (noiseHeight (px (position b)) (pz (position b)))).

(** The blocks of a generation pass with draws in [0, 1): terrain inside
    the footprint from y = 0 to the column height, or tree blocks (wood or
    grass) between y = 24 and y = 70 at most two columns outside the
    footprint. *)
Definition GenLayoutOk (noiseHeight : Z → Z → Z) (chunkX chunkZ : Z)
    (m : gmap string Block) : Prop :=
  ∀ k b, m !! k = Some b →
    k = keyOf (position b) ∧
    ((inChunk chunkX chunkZ (position b) ∧
      0 ≤ py (position b) ≤
        clampHeight (noiseHeight (px (position b)) (pz (position b))))
     ∨ (SEA_LEVEL + 4 ≤ py (position b) ≤ SEA_LEVEL + 50 ∧
        chunkX * CHUNK_SIZE - 2 ≤ px (position b) ≤ chunkX * CHUNK_SIZE + 9 ∧
        chunkZ * CHUNK_SIZE - 2 ≤ pz (position b) ≤ chunkZ * CHUNK_SIZE + 9 ∧
        (type b = wood ∨ type b = grass))).

(** The chunk holds a block at the position. *)
Definition hasBlockAt (p : Position) (c : Chunk) : Prop :=
  ∃ b, blocks c !! keyOf p = Some b.

Definition GenLayoutState (noiseHeight : Z → Z → Z) (chunkX chunkZ : Z)
    (st : Chunk * RandomSource) : Prop :=
  GenLayoutOk noiseHeight chunkX chunkZ (blocks st.1) ∧ unitDraws st.2.

(** The two loading loops of [updateLoadedChunks], from an accumulator. *)
Definition refreshLoop (noiseHeight : Z → Z → Z) (xlo xhi zlo zhi : Z)
    (init : gset string * (gmap string Chunk * RandomSource))
    : gset string * (gmap string Chunk * RandomSource) :=
  forRange xlo xhi
    (λ x, forRange zlo zhi
       (λ z (acc : gset string * (gmap string Chunk * RandomSource)),
          let '(loaded, st) := acc in
          ({[getChunkKey x z]} ∪ loaded,
           (getOrGenerateChunk noiseHeight x z st).2)))
    init.

(** What the loading loops maintain, relative to the cache they started
    from: visited keys are cached and name chunks of the square, and
    chunks cached at the start are still there, unchanged. *)
Definition RefreshInv (xlo xhi zlo zhi : Z) (start : gmap string Chunk)
    (acc : gset string * (gmap string Chunk * RandomSource)) : Prop :=
  (∀ k, k ∈ acc.1 → is_Some (acc.2.1 !! k)) ∧
  (∀ k, k ∈ acc.1 →
     ∃ x z, xlo ≤ x ≤ xhi ∧ zlo ≤ z ≤ zhi ∧ k = getChunkKey x z) ∧
  (∀ k c, start !! k = Some c → acc.2.1 !! k = Some c).


(** Every chunk of the square around the last refresh position is cached. *)
Definition RefreshSquareCached (wm : WorldManagerState) : Prop :=
  ∀ chunkX chunkZ,
    inRenderSquare
      (getChunkCoordQ (lastPlayerPosition wm).1 (lastPlayerPosition wm).2)
      chunkX chunkZ →
    is_Some (chunkManager wm !! getChunkKey chunkX chunkZ).

(** * Properties *)

(** ** The embedding on concrete inputs *)

Example positionKey_example : positionKey (-1) 32 (-2) = "-1,32,-2"%string.
Proof. reflexivity. Qed.

Example getChunkCoord_negative :
  getChunkCoord (-1) 17 = {| coord_x := -1; coord_z := 2 |}.
Proof. reflexivity. Qed.

Example terrainType_bands :
  terrainType 200 200 = snow ∧ terrainType 100 100 = stone ∧
  terrainType 23 23 = grass ∧ terrainType 20 20 = sand ∧
  terrainType 19 23 = dirt ∧ terrainType 18 23 = stone ∧
  terrainType 20 21 = sand ∧ terrainType 10 15 = stone.
Proof. repeat split. Qed.

(** Chunk (0,0) of the sample terrain without trees: the columns hold
    [h + 1] blocks each and no water (all heights are at least 20). *)
Example generateChunk_sample :
  let chunk := (generateChunk sampleHeight 0 0 (drawsThen [] (1 # 2))).1 in
  size (blocks chunk) = 2060%nat ∧ size (waterBlocks chunk) = 0%nat ∧
  blocks chunk !! positionKey 1 23 0
    = Some {| position := {| px := 1; py := 23; pz := 0 |}; type := grass |} ∧
  blocks chunk !! positionKey 1 24 0 = None.
Proof. vm_compute. done. Qed.

Example hasCollision_example :
  hasCollisionAtPosition (updateBlocks [originBlock])
    {| vx := 0; vy := 5 # 10; vz := 0 |} = true ∧
  hasCollisionAtPosition (updateBlocks [originBlock])
    {| vx := 1; vy := 5 # 10; vz := 0 |} = false.
Proof. vm_compute. done. Qed.

(** ** Keys determine coordinates *)

Lemma pretty_N_char_commaFree (d : N) (s : string) :
  commaFree s = true → commaFree (String (pretty_N_char d) s) = true.
Proof.
  intros Hs. unfold pretty_N_char. cbn [commaFree]. rewrite Hs.
  by repeat case_match.
Qed.

Lemma pretty_N_go_commaFree (n : N) (s : string) :
  commaFree s = true → commaFree (pretty_N_go n s) = true.
Proof.
  revert s. induction (N.lt_wf_0 n) as [n _ IH]; intros s Hs.
  destruct (decide (n = 0%N)) as [->|Hn].
  - by rewrite pretty_N_go_0.
  - rewrite pretty_N_go_step by lia.
    apply IH; [apply N.div_lt; lia | by apply pretty_N_char_commaFree].
Qed.

Lemma pretty_N_commaFree (n : N) : commaFree (pretty n) = true.
Proof.
  unfold pretty, pretty_N. case_decide; [done|].
  by apply pretty_N_go_commaFree.
Qed.

Lemma pretty_Z_commaFree (n : Z) : commaFree (pretty n) = true.
Proof.
  destruct n as [|p|p]; [done| |].
  - apply (pretty_N_commaFree (N.pos p)).
  - change (pretty (Z.neg p)) with ("-" +:+ pretty (N.pos p)).
    cbn. apply (pretty_N_commaFree (N.pos p)).
Qed.

(** Splitting at the first comma is unambiguous. *)
Lemma comma_split_inj (a a' b b' : string) :
  commaFree a = true → commaFree a' = true →
  a +:+ "," +:+ b = a' +:+ "," +:+ b' → a = a' ∧ b = b'.
Proof.
  revert a'. induction a as [|c a IH]; intros [|c' a'] Ha Ha' Heq; cbn in *.
  - by simplify_eq.
  - injection Heq as <- _. by rewrite Ascii.eqb_refl in Ha'.
  - injection Heq as -> _. by rewrite Ascii.eqb_refl in Ha.
  - apply andb_prop in Ha as [_ Ha]. apply andb_prop in Ha' as [_ Ha'].
    injection Heq as -> Heq. by destruct (IH a' Ha Ha' Heq) as [-> ->].
Qed.

Lemma getChunkKey_inj (x z x' z' : Z) :
  getChunkKey x z = getChunkKey x' z' → x = x' ∧ z = z'.
Proof.
  unfold getChunkKey. intros H.
  apply comma_split_inj in H as [Hx Hz]; [|apply pretty_Z_commaFree..].
  split; by apply (inj pretty).
Qed.

Lemma positionKey_inj (x y z x' y' z' : Z) :
  positionKey x y z = positionKey x' y' z' → x = x' ∧ y = y' ∧ z = z'.
Proof.
  unfold positionKey. intros H.
  apply comma_split_inj in H as [Hx H]; [|apply pretty_Z_commaFree..].
  apply comma_split_inj in H as [Hy Hz]; [|apply pretty_Z_commaFree..].
  repeat split; by apply (inj pretty).
Qed.

Lemma keyOf_inj (p q : Position) : keyOf p = keyOf q → p = q.
Proof.
  destruct p, q. unfold keyOf. cbn. intros H.
  apply positionKey_inj in H as (-> & -> & ->). done.
Qed.

(** ** Chunk coordinates *)

Lemma Qfloor_div_Z (a : Z) (d : positive) :
  Qfloor (inject_Z a / inject_Z (Z.pos d)) = a `div` Z.pos d.
Proof.
  unfold Qdiv, Qinv, Qmult, inject_Z, Qfloor. cbn.
  by rewrite Z.mul_1_r.
Qed.

Lemma getChunkCoord_div (x z : Z) :
  getChunkCoord x z = {| coord_x := x `div` 8; coord_z := z `div` 8 |}.
Proof.
  unfold getChunkCoord, getChunkCoordQ, CHUNK_SIZE.
  by rewrite !Qfloor_div_Z.
Qed.

(** ** Loops *)

Lemma forRange_invariant {S : Type} (P : S → Prop) (lo hi : Z)
    (body : Z → S → S) (s : S) :
  P s →
  (∀ i s', lo ≤ i ≤ hi → P s' → P (body i s')) →
  P (forRange lo hi body s).
Proof.
  intros Hs Hbody. unfold forRange.
  assert (Forall (λ i, lo ≤ i ≤ hi) (seqZ lo (hi - lo + 1))) as Hall.
  { apply Forall_seqZ. lia. }
  revert s Hs. induction Hall as [|i l Hi _ IH]; intros s Hs; cbn; [done|].
  apply IH. by apply Hbody.
Qed.

(** A property that one iteration establishes and the others keep holds
    after the loop; [P] is an invariant the iterations may rely on. *)
Lemma forRange_establish {S : Type} (P Q : S → Prop) (lo hi i : Z)
    (body : Z → S → S) (s : S) :
  lo ≤ i ≤ hi →
  P s →
  (∀ j s', lo ≤ j ≤ hi → P s' → P (body j s')) →
  (∀ s', P s' → Q (body i s')) →
  (∀ j s', lo ≤ j ≤ hi → P s' → Q s' → Q (body j s')) →
  Q (forRange lo hi body s).
Proof.
  intros Hi Hs HP Hest Hkeep. unfold forRange.
  assert (i ∈ seqZ lo (hi - lo + 1)) as Hin by (apply elem_of_seqZ; lia).
  assert (Forall (λ j, lo ≤ j ≤ hi) (seqZ lo (hi - lo + 1))) as Hall.
  { apply Forall_seqZ. lia. }
  revert Hin Hall. generalize (seqZ lo (hi - lo + 1)). intros l Hin Hall.
  assert (∀ l s', Forall (λ j, lo ≤ j ≤ hi) l → P s' → Q s' →
            Q (foldl (λ acc j, body j acc) s' l)) as Hrest.
  { clear -HP Hkeep. intros l. induction l as [|j l IH]; intros s' Hall HPs HQs; cbn; [done|].
    apply Forall_cons in Hall as [Hj Hall]. apply IH; auto. }
  revert s Hs. induction l as [|j l IH]; intros s Hs.
  - by apply elem_of_nil in Hin.
  - apply Forall_cons in Hall as [Hj Hall]. cbn.
    apply elem_of_cons in Hin as [<-|Hin].
    + apply Hrest; auto.
    + apply IH; auto.
Qed.

(** ** Random draws *)

Lemma random_unit (rng : RandomSource) :
  unitDraws rng → (0 <= (random rng).1)%Q ∧ unitDraws (random rng).2.
Proof.
  intros H. split; [apply (H 0%nat)|]. intros n. apply (H (S n)).
Qed.

Lemma treeHeight_lower (r : Q) : (0 <= r)%Q → 6 ≤ 6 + Qfloor (r * 4).
Proof.
  intros Hr.
  assert (Qfloor 0 ≤ Qfloor (r * 4)) as H.
  { apply Qfloor_resp_le. apply Qmult_le_0_compat; [done|]. by compute. }
  change (Qfloor 0) with 0 in H. lia.
Qed.

(** ** The generation pass keeps its entries where they belong *)

Section GenerationInvariant.

Variable noiseHeight : Z → Z → Z.
Variables chunkX chunkZ : Z.

Abbreviation BlocksOk := (GenBlocksOk noiseHeight chunkX chunkZ).
Abbreviation WaterOk := (GenWaterOk noiseHeight chunkX chunkZ).
Abbreviation Ok := (GenChunkOk noiseHeight chunkX chunkZ).
Abbreviation GenState := (GenStateOk noiseHeight chunkX chunkZ).

Lemma setBlockInChunk_ok (c : Chunk) (x y z : Z) (t : BlockType) :
  Ok c →
  (inChunk chunkX chunkZ {| px := x; py := y; pz := z |} ∧
     y ≤ clampHeight (noiseHeight x z))
  ∨ SEA_LEVEL + 4 ≤ y →
  Ok (setBlockInChunk c x y z t).
Proof.
  intros (Hb & Hw & Hg) Hpos. split; [|done].
  intros k b. cbn. rewrite lookup_insert. case_decide as Hk.
  - intros [= <-]. cbn. split; [by subst|done].
  - apply Hb.
Qed.

Lemma setWaterBlockInChunk_ok (c : Chunk) (x y z : Z) :
  Ok c →
  inChunk chunkX chunkZ {| px := x; py := y; pz := z |} →
  clampHeight (noiseHeight x z) < y ≤ SEA_LEVEL →
  Ok (setWaterBlockInChunk c x y z 1).
Proof.
  intros (Hb & Hw & Hg) Hin Hy. split; [done|]. split; [|done].
  intros k w. cbn. rewrite lookup_insert. case_decide as Hk.
  - intros [= <-]. cbn. split; [by subst|]. repeat split; [done|lia..].
  - apply Hw.
Qed.

Lemma placeLeaf_ok (worldX worldZ top leafX leafZ : Z)
    (st : Chunk * RandomSource) :
  SEA_LEVEL + 3 ≤ top →
  GenState st → GenState (placeLeaf worldX worldZ top leafX leafZ st).
Proof.
  intros Htop [Hc Hr]. destruct st as [c rng]. cbn in Hc, Hr.
  unfold placeLeaf.
  destruct (random_unit rng Hr) as [_ Hr1].
  destruct (random rng) as [r rng1]. cbn in Hr1.
  destruct (Qltb r (7 # 10) && negb ((leafX =? worldX) && (leafZ =? worldZ))).
  - destruct (random_unit rng1 Hr1) as [_ Hr2].
    destruct (random rng1) as [r2 rng2]. cbn in Hr2.
    destruct (Qltb r2 (5 # 10)); (split; [cbn|done]).
    + apply setBlockInChunk_ok; [|right; lia].
      apply setBlockInChunk_ok; [done|right; lia].
    + apply setBlockInChunk_ok; [done|right; lia].
  - done.
Qed.

Lemma placeTree_ok (worldX worldZ clampedHeight : Z)
    (st : Chunk * RandomSource) :
  SEA_LEVEL + 2 < clampedHeight →
  GenState st → GenState (placeTree worldX worldZ clampedHeight st).
Proof.
  intros Hh [Hc Hr]. destruct st as [c rng]. cbn in Hc, Hr.
  unfold placeTree.
  destruct (random_unit rng Hr) as [Hr0 Hr1].
  destruct (random rng) as [r rng1]. cbn in Hr0, Hr1.
  pose proof (treeHeight_lower r Hr0) as Hth.
  apply forRange_invariant.
  - split; [cbn|done].
    apply (forRange_invariant Ok); [done|].
    intros y c' Hy Hc'. apply setBlockInChunk_ok; [done|right; lia].
  - intros leafX st' _ Hst'. apply forRange_invariant; [done|].
    intros leafZ st'' _ Hst''. apply placeLeaf_ok; [lia|done].
Qed.

Lemma generateColumn_ok (worldX worldZ : Z) (st : Chunk * RandomSource) :
  inChunk chunkX chunkZ {| px := worldX; py := 0; pz := worldZ |} →
  GenState st → GenState (generateColumn noiseHeight worldX worldZ st).
Proof.
  intros Hin [Hc Hr]. destruct st as [c rng]. cbn in Hc, Hr.
  unfold generateColumn.
  set (h := clampHeight (noiseHeight worldX worldZ)).
  assert (Ok (forRange 0 h
    (λ y c0, setBlockInChunk c0 worldX y worldZ (terrainType y h)) c)) as Hterrain.
  { apply forRange_invariant; [done|].
    intros y c' Hy Hc'. apply setBlockInChunk_ok; [done|left].
    split; [exact Hin|]. fold h. lia. }
  set (c1 := forRange 0 h _ c) in *.
  assert (Ok (if h <? SEA_LEVEL
              then forRange (h + 1) SEA_LEVEL
                     (λ y c0, setWaterBlockInChunk c0 worldX y worldZ 1) c1
              else c1)) as Hwater.
  { destruct (h <? SEA_LEVEL); [|done].
    apply forRange_invariant; [done|].
    intros y c' Hy Hc'. apply setWaterBlockInChunk_ok; [done|exact Hin|].
    fold h. lia. }
  set (c2 := if h <? SEA_LEVEL then _ else c1) in *.
  destruct ((h >? SEA_LEVEL + 2) && (h <? SEA_LEVEL + 40)) eqn:Htree; [|done].
  destruct (random_unit rng Hr) as [_ Hr1].
  destruct (random rng) as [r rng1]. cbn in Hr1.
  destruct (Qltb r (3 # 100)); [|done].
  apply placeTree_ok; [|done].
  apply andb_prop in Htree as [Hlo _]. lia.
Qed.

Lemma column_inChunk (localX localZ y : Z) :
  0 ≤ localX ≤ CHUNK_SIZE - 1 → 0 ≤ localZ ≤ CHUNK_SIZE - 1 →
  inChunk chunkX chunkZ
    {| px := chunkX * CHUNK_SIZE + localX; py := y;
       pz := chunkZ * CHUNK_SIZE + localZ |}.
Proof.
  unfold inChunk, CHUNK_SIZE. cbn. intros Hx Hz.
  rewrite getChunkCoord_div. f_equal.
  - rewrite Z.add_comm, Z.div_add by lia. rewrite Z.div_small; lia.
  - rewrite Z.add_comm, Z.div_add by lia. rewrite Z.div_small; lia.
Qed.

Lemma generateChunk_ok (rng : RandomSource) :
  unitDraws rng → GenState (generateChunk noiseHeight chunkX chunkZ rng).
Proof.
  intros Hr. unfold generateChunk.
  apply forRange_invariant.
  - split; [|done]. by repeat split.
  - intros localX st HlocalX Hst. apply forRange_invariant; [done|].
    intros localZ st' HlocalZ Hst'.
    apply generateColumn_ok; [|done]. by apply column_inChunk.
Qed.

End GenerationInvariant.

(** ** Water laid by a column stays *)

Section SeaFill.

Variable noiseHeight : Z → Z → Z.

Lemma setBlockInChunk_water (c : Chunk) (x y z : Z) (t : BlockType) :
  waterBlocks (setBlockInChunk c x y z t) = waterBlocks c.
Proof. done. Qed.

Lemma setWaterBlockInChunk_keeps (p : Position) (c : Chunk) (x y z : Z) :
  hasWater p c → hasWater p (setWaterBlockInChunk c x y z 1).
Proof.
  unfold hasWater. intros Hp. cbn. rewrite lookup_insert. case_decide as Hk.
  - change (positionKey x y z) with (keyOf {| px := x; py := y; pz := z |}) in Hk.
    by apply keyOf_inj in Hk as <-.
  - done.
Qed.

Lemma placeLeaf_water (worldX worldZ top leafX leafZ : Z)
    (st : Chunk * RandomSource) :
  waterBlocks (placeLeaf worldX worldZ top leafX leafZ st).1 = waterBlocks st.1.
Proof.
  destruct st as [c rng]. unfold placeLeaf.
  destruct (random rng) as [r rng1].
  destruct (Qltb r (7 # 10) && negb ((leafX =? worldX) && (leafZ =? worldZ))); [|done].
  destruct (random rng1) as [r2 rng2].
  by destruct (Qltb r2 (5 # 10)).
Qed.

Lemma placeTree_water (worldX worldZ clampedHeight : Z)
    (st : Chunk * RandomSource) :
  waterBlocks (placeTree worldX worldZ clampedHeight st).1 = waterBlocks st.1.
Proof.
  destruct st as [c rng]. unfold placeTree.
  destruct (random rng) as [r rng1]. cbn [fst].
  apply (forRange_invariant (λ st', waterBlocks st'.1 = waterBlocks c)).
  - cbn [fst].
    apply (forRange_invariant (λ c', waterBlocks c' = waterBlocks c)); [done|].
    intros y c' _ Hc'. by rewrite setBlockInChunk_water.
  - intros leafX st' _ Hst'.
    apply (forRange_invariant (λ st'', waterBlocks st''.1 = waterBlocks c)); [done|].
    intros leafZ st'' _ Hst''. by rewrite placeLeaf_water.
Qed.

Lemma generateColumn_keeps_water (p : Position) (worldX worldZ : Z)
    (st : Chunk * RandomSource) :
  hasWater p st.1 → hasWater p (generateColumn noiseHeight worldX worldZ st).1.
Proof.
  destruct st as [c rng]. cbn [fst]. intros Hp. unfold generateColumn.
  set (h := clampHeight (noiseHeight worldX worldZ)).
  assert (hasWater p (forRange 0 h
    (λ y c0, setBlockInChunk c0 worldX y worldZ (terrainType y h)) c)) as H1.
  { apply (forRange_invariant (hasWater p)); [done|]. by intros y c' _ Hc'. }
  set (c1 := forRange 0 h _ c) in *.
  assert (hasWater p (if h <? SEA_LEVEL
              then forRange (h + 1) SEA_LEVEL
                     (λ y c0, setWaterBlockInChunk c0 worldX y worldZ 1) c1
              else c1)) as H2.
  { destruct (h <? SEA_LEVEL); [|done].
    apply (forRange_invariant (hasWater p)); [done|].
    intros y c' _ Hc'. by apply setWaterBlockInChunk_keeps. }
  set (c2 := if h <? SEA_LEVEL then _ else c1) in *.
  destruct ((h >? SEA_LEVEL + 2) && (h <? SEA_LEVEL + 40)); [|done].
  destruct (random rng) as [r rng1].
  destruct (Qltb r (3 # 100)); [|done].
  unfold hasWater. by rewrite placeTree_water.
Qed.

(** The column pass fills its own column from the surface to sea level. *)
Lemma generateColumn_fills (worldX worldZ y : Z) (st : Chunk * RandomSource) :
  clampHeight (noiseHeight worldX worldZ) < y ≤ SEA_LEVEL →
  hasWater {| px := worldX; py := y; pz := worldZ |}
    (generateColumn noiseHeight worldX worldZ st).1.
Proof.
  destruct st as [c rng]. intros Hy. unfold generateColumn.
  set (h := clampHeight (noiseHeight worldX worldZ)) in *.
  set (c1 := forRange 0 h _ c).
  set (p := {| px := worldX; py := y; pz := worldZ |}).
  assert (hasWater p (if h <? SEA_LEVEL
              then forRange (h + 1) SEA_LEVEL
                     (λ y c0, setWaterBlockInChunk c0 worldX y worldZ 1) c1
              else c1)) as H2.
  { destruct (Z.ltb_spec h SEA_LEVEL); [|lia].
    apply (forRange_establish (λ _, True) (hasWater p) _ _ y); [lia|done..| |].
    - intros c' _. unfold hasWater. cbn. apply lookup_insert_eq.
    - intros j c' _ _ Hc'. by apply setWaterBlockInChunk_keeps. }
  set (c2 := if h <? SEA_LEVEL then _ else c1) in *.
  destruct ((h >? SEA_LEVEL + 2) && (h <? SEA_LEVEL + 40)); [|done].
  destruct (random rng) as [r rng1].
  destruct (Qltb r (3 # 100)); [|done].
  unfold hasWater. by rewrite placeTree_water.
Qed.

Lemma inChunk_local (chunkX chunkZ : Z) (p : Position) :
  inChunk chunkX chunkZ p →
  ∃ localX localZ,
    0 ≤ localX ≤ CHUNK_SIZE - 1 ∧ 0 ≤ localZ ≤ CHUNK_SIZE - 1 ∧
    px p = chunkX * CHUNK_SIZE + localX ∧ pz p = chunkZ * CHUNK_SIZE + localZ.
Proof.
  unfold inChunk, CHUNK_SIZE. rewrite getChunkCoord_div. intros [= <- <-].
  exists (px p `mod` 8), (pz p `mod` 8).
  pose proof (Z.mod_pos_bound (px p) 8). pose proof (Z.mod_pos_bound (pz p) 8).
  pose proof (Z.div_mod (px p) 8). pose proof (Z.div_mod (pz p) 8). lia.
Qed.

Lemma generateChunk_fills (chunkX chunkZ x y z : Z) (rng : RandomSource) :
  inChunk chunkX chunkZ {| px := x; py := y; pz := z |} →
  clampHeight (noiseHeight x z) < y ≤ SEA_LEVEL →
  hasWater {| px := x; py := y; pz := z |}
    (generateChunk noiseHeight chunkX chunkZ rng).1.
Proof.
  intros Hin Hy.
  destruct (inChunk_local _ _ _ Hin) as (localX & localZ & HlocalX & HlocalZ & Hx & Hz).
  cbn in Hx, Hz. subst x z.
  set (p := {| px := _; py := y; pz := _ |}).
  unfold generateChunk.
  apply (forRange_establish (λ _, True) (λ st, hasWater p st.1) _ _ localX);
    [done..| |].
  - intros st _.
    apply (forRange_establish (λ _, True) (λ st, hasWater p st.1) _ _ localZ);
      [done..| |].
    + intros st' _. by apply generateColumn_fills.
    + intros j st' _ _ Hst'. by apply generateColumn_keeps_water.
  - intros i st _ _ Hst.
    apply (forRange_invariant (λ st, hasWater p st.1)); [done|].
    intros j st' _ Hst'. by apply generateColumn_keeps_water.
Qed.

(** C6. Sea fill: in a generated chunk, a column whose clamped height [h]
    is below sea level holds, at every [y] with [h < y <= 20], a water block
    of level 1 and no solid block. *)
Theorem generateChunk_sea_fill (chunkX chunkZ x y z : Z) (rng : RandomSource) :
  unitDraws rng →
  inChunk chunkX chunkZ {| px := x; py := y; pz := z |} →
  clampHeight (noiseHeight x z) < SEA_LEVEL →
  clampHeight (noiseHeight x z) < y ≤ SEA_LEVEL →
  let chunk := (generateChunk noiseHeight chunkX chunkZ rng).1 in
  waterBlocks chunk !! positionKey x y z
    = Some {| wposition := {| px := x; py := y; pz := z |}; level := 1 |}
  ∧ blocks chunk !! positionKey x y z = None.
Proof.
  intros Hrng Hin Hh Hy chunk. split.
  - by apply generateChunk_fills.
  - destruct (blocks chunk !! positionKey x y z) as [b|] eqn:Hb; [|done].
    destruct (generateChunk_ok noiseHeight chunkX chunkZ rng Hrng) as [(Hblocks & _) _].
    destruct (Hblocks _ _ Hb) as [Hk Hpos].
    change (positionKey x y z) with (keyOf {| px := x; py := y; pz := z |}) in Hk.
    apply keyOf_inj in Hk. rewrite <- Hk in Hpos. cbn in Hpos.
    unfold SEA_LEVEL in *. lia.
Qed.

End SeaFill.

Lemma unitDraws_drawsThen (draws : list Q) (rest : Q) :
  Forall (λ r, (0 <= r)%Q ∧ (r < 1)%Q) draws → (0 <= rest)%Q ∧ (rest < 1)%Q →
  unitDraws (drawsThen draws rest).
Proof.
  intros Hall Hrest n. unfold drawsThen.
  destruct (draws !! n) as [r|] eqn:Hn; cbn; [|done].
  by apply (Forall_lookup_1 _ _ _ _ Hall Hn).
Qed.

Lemma half_unit : (0 <= 1 # 2)%Q ∧ (1 # 2 < 1)%Q.
Proof. by compute. Qed.

(** The column (-1, 0) of the sample terrain has height 16: water fills
    y = 17 .. 20 of the generated chunk (-1, 0). *)
Lemma generateChunk_sea_fill_witness :
  let chunk := (generateChunk sampleHeight (-1) 0 (drawsThen [] (1 # 2))).1 in
  waterBlocks chunk !! positionKey (-1) 18 0
    = Some {| wposition := {| px := -1; py := 18; pz := 0 |}; level := 1 |}
  ∧ blocks chunk !! positionKey (-1) 18 0 = None.
Proof.
  apply (generateChunk_sea_fill sampleHeight (-1) 0 (-1) 18 0).
  - apply unitDraws_drawsThen; [constructor|apply half_unit].
  - reflexivity.
  - change (clampHeight (sampleHeight (-1) 0)) with 16. unfold SEA_LEVEL. lia.
  - change (clampHeight (sampleHeight (-1) 0)) with 16. unfold SEA_LEVEL. lia.
Defined.

(** ** Tree canopies cross the chunk border *)

(** C1. The generation pass of chunk (0,0) on the terrain of the source,
    when the first eligible column (x = 1, z = 0, height 23) is selected
    for a tree, stores canopy blocks whose positions belong to the
    neighbouring chunks: the leaf at (-1, 32, -2) is an entry of chunk
    (0,0) although its chunk coordinate is (-1, -1). *)
Theorem generateChunk_canopy_leaves_chunk :
  let chunk := (generateChunk sampleHeight 0 0 treeDraws).1 in
  chunk_x chunk = 0 ∧ chunk_z chunk = 0 ∧
  blocks chunk !! positionKey (-1) 32 (-2) = Some strayLeaf
  ∧ getChunkCoord (px (position strayLeaf)) (pz (position strayLeaf))
    = {| coord_x := -1; coord_z := -1 |}.
Proof. vm_compute. done. Qed.

(** ** The cache invariant *)

Lemma inChunk_homeKey (chunkX chunkZ : Z) (p : Position) :
  inChunk chunkX chunkZ p → homeKey p = getChunkKey chunkX chunkZ.
Proof. unfold inChunk, homeKey. by intros ->. Qed.

Lemma GenChunkOk_ChunkOk (noiseHeight : Z → Z → Z) (chunkX chunkZ : Z) (c : Chunk) :
  GenChunkOk noiseHeight chunkX chunkZ c → ChunkOk (getChunkKey chunkX chunkZ) c.
Proof.
  intros (Hb & Hw & _). repeat split.
  - by apply (Hb k b).
  - destruct (Hb k b H) as [_ [[Hin _]|Hy]].
    + left. symmetry. by apply inChunk_homeKey.
    + right. unfold SEA_LEVEL in *. lia.
  - by apply (Hw k w).
  - destruct (Hw k w H) as (_ & Hin & _). symmetry. by apply inChunk_homeKey.
  - by destruct (Hw k w H) as (_ & _ & _ & Hy & _).
  - intros k. destruct (blocks c !! k) as [b|] eqn:Hkb; [|by left].
    destruct (waterBlocks c !! k) as [w|] eqn:Hkw; [|by right].
    exfalso.
    destruct (Hb k b Hkb) as [Hk1 Hpos]. destruct (Hw k w Hkw) as (Hk2 & _ & Hlo & Hhi & _).
    rewrite Hk1 in Hk2. apply keyOf_inj in Hk2. rewrite Hk2 in Hpos.
    unfold SEA_LEVEL in *. lia.
Qed.

Lemma StoreOk_empty : StoreOk ∅.
Proof. intros k c. by rewrite lookup_empty. Qed.

Lemma StoreOk_insert (chunks : gmap string Chunk) (key : string) (c : Chunk) :
  StoreOk chunks → ChunkOk key c → StoreOk (<[key := c]> chunks).
Proof.
  intros Hs Hc k c'. rewrite lookup_insert. case_decide as Hk.
  - intros [= <-]. by subst.
  - apply Hs.
Qed.

Lemma StoreOk_Exclusive (chunks : gmap string Chunk) :
  StoreOk chunks → Exclusive chunks.
Proof.
  intros Hs key1 key2 c1 c2 k H1 H2.
  destruct (blocks c1 !! k) as [b|] eqn:Hkb; [|by left].
  destruct (waterBlocks c2 !! k) as [w|] eqn:Hkw; [|by right].
  exfalso.
  destruct (Hs _ _ H1) as (Hb1 & _ & _).
  destruct (Hs _ _ H2) as (_ & Hw2 & Hex2).
  destruct (Hb1 _ _ Hkb) as [Hk1 Hhome].
  destruct (Hw2 _ _ Hkw) as (Hk2 & Hhome2 & Hy).
  rewrite Hk1 in Hk2. apply keyOf_inj in Hk2. rewrite Hk2 in Hhome.
  destruct Hhome as [Hhome|Hhigh]; [|lia].
  assert (key1 = key2) as <- by congruence.
  assert (c1 = c2) as <- by congruence.
  destruct (Hex2 k); congruence.
Qed.

Section StoreInvariant.

Variable noiseHeight : Z → Z → Z.

Lemma getOrGenerateChunk_ok (chunkX chunkZ : Z)
    (st : gmap string Chunk * RandomSource) :
  WorldOk st →
  WorldOk (getOrGenerateChunk noiseHeight chunkX chunkZ st).2 ∧
  (getOrGenerateChunk noiseHeight chunkX chunkZ st).2.1 !! getChunkKey chunkX chunkZ
    = Some (getOrGenerateChunk noiseHeight chunkX chunkZ st).1.
Proof.
  destruct st as [chunks rng]. intros [Hs Hr]. cbn in Hs, Hr.
  unfold getOrGenerateChunk.
  destruct (chunks !! getChunkKey chunkX chunkZ) as [c|] eqn:Hc; [done|].
  pose proof (generateChunk_ok noiseHeight chunkX chunkZ rng Hr) as [Hgen Hr'].
  destruct (generateChunk noiseHeight chunkX chunkZ rng) as [c rng'].
  cbn in *. split; [split|]; [|done|].
  - apply StoreOk_insert; [done|]. by eapply GenChunkOk_ChunkOk.
  - apply lookup_insert_eq.
Qed.

Lemma placeBlock_ok (p : Position) (t : BlockType)
    (st : gmap string Chunk * RandomSource) :
  WorldOk st → WorldOk (placeBlock noiseHeight p t st).
Proof.
  intros Hst. unfold placeBlock.
  destruct ((py p <? 0) || (py p >? MAX_HEIGHT + 20)); [done|].
  destruct (isWater t); [done|].
  set (coord := getChunkCoord (px p) (pz p)).
  destruct (getOrGenerateChunk_ok (coord_x coord) (coord_z coord) st Hst)
    as [[Hs Hr] Hc].
  destruct (getOrGenerateChunk noiseHeight (coord_x coord) (coord_z coord) st)
    as [c [chunks rng]].
  cbn in *. split; [|done]. cbn.
  apply StoreOk_insert; [done|].
  destruct (Hs _ _ Hc) as (Hb & Hw & Hex). split; [|split]; cbn.
  - intros k b. rewrite lookup_insert. case_decide; [|apply Hb].
    intros [= <-]. split; [done|by left].
  - intros k w [_ H]%lookup_delete_Some. by apply Hw.
  - intros k. cbn. destruct (decide (keyOf p = k)) as [<-|Hk].
    + right. apply lookup_delete_eq.
    + rewrite lookup_insert_ne, lookup_delete_ne by done. apply Hex.
Qed.

Lemma removeBlock_ok (p : Position) (chunks : gmap string Chunk) :
  StoreOk chunks → StoreOk (removeBlock p chunks).
Proof.
  intros Hs. unfold removeBlock. fold (homeKey p).
  destruct (chunks !! homeKey p) as [c|] eqn:Hc; [|done].
  apply StoreOk_insert; [done|].
  destruct (Hs _ _ Hc) as (Hb & Hw & Hex).
  split; [|split]; cbn.
  - intros k b [_ H]%lookup_delete_Some. by apply Hb.
  - intros k w. destruct (Z.leb_spec (py p) SEA_LEVEL); [|apply Hw].
    rewrite lookup_insert. case_decide; [|apply Hw].
    by intros [= <-].
  - intros k. cbn. destruct (decide (keyOf p = k)) as [<-|Hk].
    + left. apply lookup_delete_eq.
    + rewrite lookup_delete_ne by done.
      destruct (py p <=? SEA_LEVEL); [|apply Hex].
      rewrite lookup_insert_ne by done. apply Hex.
Qed.

Lemma updateLoadedChunks_ok (playerX playerZ : Q)
    (st : gmap string Chunk * RandomSource) :
  WorldOk st → WorldOk (updateLoadedChunks noiseHeight playerX playerZ st).
Proof.
  intros Hst. unfold updateLoadedChunks.
  set (loop := forRange _ _ _ _).
  assert (WorldOk loop.2) as Hloop.
  { subst loop.
    apply (forRange_invariant
             (λ acc : gset string * (gmap string Chunk * RandomSource), WorldOk acc.2));
      [done|].
    intros x acc _ Hacc.
    apply (forRange_invariant
             (λ acc : gset string * (gmap string Chunk * RandomSource), WorldOk acc.2));
      [done|].
    intros z [loaded st'] _ Hst'. cbn in *.
    by apply getOrGenerateChunk_ok. }
  destruct loop as [loaded [chunks rng]]. destruct Hloop as [Hs Hr].
  split; [|done]. cbn in *.
  intros k c [Hc _]%map_lookup_filter_Some. by apply Hs.
Qed.

Lemma step_ok (st : gmap string Chunk * RandomSource) (op : Operation) :
  isBuildOp op = true → WorldOk st → WorldOk (step noiseHeight st op).
Proof.
  intros Hop Hst. destruct op; cbn [step]; try done.
  - by apply getOrGenerateChunk_ok.
  - by apply updateLoadedChunks_ok.
  - by apply placeBlock_ok.
  - destruct Hst. split; [|done]. by apply removeBlock_ok.
  - destruct Hst. split; [|done]. apply StoreOk_empty.
Qed.

Lemma run_ok (ops : list Operation) (rng : RandomSource) :
  Forall (λ op, isBuildOp op = true) ops → unitDraws rng →
  WorldOk (run noiseHeight ops rng).
Proof.
  intros Hops Hr. unfold run.
  assert (WorldOk (∅, rng)) as Hinit by (split; [apply StoreOk_empty|done]).
  revert Hinit. generalize (∅ : gmap string Chunk, rng).
  induction Hops as [|op ops Hop _ IH]; intros st Hst; cbn; [done|].
  apply IH. by apply step_ok.
Qed.

(** C4. Exclusivity: after any sequence of placements and removals (and
    of the chunk generations, streaming refreshes and resets around them)
    on an initially empty cache, no key is both a block key and a water
    key, within one chunk or across two cached chunks. *)
Theorem place_remove_exclusive (ops : list Operation) (rng : RandomSource) :
  unitDraws rng →
  Forall (λ op, isBuildOp op = true) ops →
  Exclusive (run noiseHeight ops rng).1.
Proof.
  intros Hr Hops. apply StoreOk_Exclusive. by apply run_ok.
Qed.

End StoreInvariant.

Lemma place_remove_exclusive_witness :
  Exclusive (run sampleHeight sampleSession (drawsThen [] (1 # 2))).1.
Proof.
  apply place_remove_exclusive.
  - apply unitDraws_drawsThen; [constructor|apply half_unit].
  - repeat constructor.
Defined.

(** ** Every cached chunk is marked generated *)

Section Generated.

Variable noiseHeight : Z → Z → Z.

Lemma placeLeaf_generated (worldX worldZ top leafX leafZ : Z)
    (st : Chunk * RandomSource) :
  generated (placeLeaf worldX worldZ top leafX leafZ st).1 = generated st.1.
Proof.
  destruct st as [c rng]. unfold placeLeaf.
  destruct (random rng) as [r rng1].
  destruct (Qltb r (7 # 10) && negb ((leafX =? worldX) && (leafZ =? worldZ))); [|done].
  destruct (random rng1) as [r2 rng2].
  by destruct (Qltb r2 (5 # 10)).
Qed.

Lemma placeTree_generated (worldX worldZ clampedHeight : Z)
    (st : Chunk * RandomSource) :
  generated (placeTree worldX worldZ clampedHeight st).1 = generated st.1.
Proof.
  destruct st as [c rng]. unfold placeTree.
  destruct (random rng) as [r rng1]. cbn [fst].
  apply (forRange_invariant (λ st', generated st'.1 = generated c)).
  - cbn [fst]. by apply (forRange_invariant (λ c', generated c' = generated c)).
  - intros leafX st' _ Hst'.
    apply (forRange_invariant (λ st'', generated st''.1 = generated c)); [done|].
    intros leafZ st'' _ Hst''. by rewrite placeLeaf_generated.
Qed.

Lemma generateColumn_generated (worldX worldZ : Z) (st : Chunk * RandomSource) :
  generated (generateColumn noiseHeight worldX worldZ st).1 = generated st.1.
Proof.
  destruct st as [c rng]. cbn [fst]. unfold generateColumn.
  set (h := clampHeight (noiseHeight worldX worldZ)).
  assert (generated (forRange 0 h
    (λ y c0, setBlockInChunk c0 worldX y worldZ (terrainType y h)) c)
    = generated c) as H1.
  { by apply (forRange_invariant (λ c', generated c' = generated c)). }
  set (c1 := forRange 0 h _ c) in *.
  assert (generated (if h <? SEA_LEVEL
              then forRange (h + 1) SEA_LEVEL
                     (λ y c0, setWaterBlockInChunk c0 worldX y worldZ 1) c1
              else c1) = generated c) as H2.
  { destruct (h <? SEA_LEVEL); [|done].
    by apply (forRange_invariant (λ c', generated c' = generated c)). }
  set (c2 := if h <? SEA_LEVEL then _ else c1) in *.
  destruct ((h >? SEA_LEVEL + 2) && (h <? SEA_LEVEL + 40)); [|done].
  destruct (random rng) as [r rng1].
  destruct (Qltb r (3 # 100)); [|done].
  by rewrite placeTree_generated.
Qed.

Lemma generateChunk_generated (chunkX chunkZ : Z) (rng : RandomSource) :
  generated (generateChunk noiseHeight chunkX chunkZ rng).1 = true.
Proof.
  unfold generateChunk.
  apply (forRange_invariant (λ st, generated st.1 = true)); [done|].
  intros localX st _ Hst.
  apply (forRange_invariant (λ st, generated st.1 = true)); [done|].
  intros localZ st' _ Hst'. by rewrite generateColumn_generated.
Qed.

Lemma AllGenerated_insert (chunks : gmap string Chunk) (key : string) (c : Chunk) :
  AllGenerated chunks → generated c = true → AllGenerated (<[key := c]> chunks).
Proof.
  intros Hs Hc k c'. rewrite lookup_insert. case_decide.
  - by intros [= <-].
  - apply Hs.
Qed.

Lemma getOrGenerateChunk_generated (chunkX chunkZ : Z)
    (st : gmap string Chunk * RandomSource) :
  AllGenerated st.1 →
  AllGenerated (getOrGenerateChunk noiseHeight chunkX chunkZ st).2.1 ∧
  generated (getOrGenerateChunk noiseHeight chunkX chunkZ st).1 = true.
Proof.
  destruct st as [chunks rng]. cbn [fst]. intros Hs. unfold getOrGenerateChunk.
  destruct (chunks !! getChunkKey chunkX chunkZ) as [c|] eqn:Hc.
  - split; [done|]. by apply (Hs _ _ Hc).
  - pose proof (generateChunk_generated chunkX chunkZ rng) as Hg.
    destruct (generateChunk noiseHeight chunkX chunkZ rng) as [c rng'].
    cbn in *. split; [|done]. by apply AllGenerated_insert.
Qed.

Lemma truthy_jsOr_true (v : JsValue) : truthy (jsOr v (JsBool true)) = true.
Proof. unfold jsOr. by destruct (truthy v) eqn:Hv. Qed.

Lemma loadChunk_generated (chunkData : ChunkData) (c : Chunk) :
  loadChunk chunkData = inl c → generated c = true.
Proof.
  unfold loadChunk.
  destruct (loadEntries (data_blocks chunkData)); [|done].
  destruct (loadEntries (data_waterBlocks chunkData)); [|done].
  intros [= <-]. apply truthy_jsOr_true.
Qed.

Lemma loadChunks_generated (entries : list (string * ChunkData))
    (chunks : gmap string Chunk) :
  AllGenerated chunks → AllGenerated (loadChunks entries chunks).1.
Proof.
  revert chunks. induction entries as [|[key chunkData] rest IH]; intros chunks Hs;
    cbn; [done|].
  destruct (loadChunk chunkData) as [c|e] eqn:Hc; [|done].
  apply IH. apply AllGenerated_insert; [done|]. by eapply loadChunk_generated.
Qed.

Lemma loadRecords_generated (records : list (string * option ChunkData))
    (chunks : gmap string Chunk) :
  AllGenerated chunks → AllGenerated (loadRecords records chunks).1.
Proof.
  revert chunks.
  induction records as [|[key [chunkData|]] rest IH]; intros chunks Hs;
    cbn; [done| |done].
  destruct (loadChunk chunkData) as [c|e] eqn:Hc; [|done].
  apply IH. apply AllGenerated_insert; [done|]. by eapply loadChunk_generated.
Qed.

Lemma AllGenerated_empty : AllGenerated ∅.
Proof. intros k c. by rewrite lookup_empty. Qed.

Lemma step_generated (st : gmap string Chunk * RandomSource) (op : Operation) :
  AllGenerated st.1 → AllGenerated (step noiseHeight st op).1.
Proof.
  intros Hst. destruct op; cbn [step].
  - by apply getOrGenerateChunk_generated.
  - unfold updateLoadedChunks.
    set (loop := forRange _ _ _ _).
    assert (AllGenerated loop.2.1) as Hloop.
    { subst loop.
      apply (forRange_invariant
               (λ acc : gset string * (gmap string Chunk * RandomSource),
                  AllGenerated acc.2.1)); [done|].
      intros x acc _ Hacc.
      apply (forRange_invariant
               (λ acc : gset string * (gmap string Chunk * RandomSource),
                  AllGenerated acc.2.1)); [done|].
      intros z [loaded st'] _ Hst'. cbn in *.
      by apply getOrGenerateChunk_generated. }
    destruct loop as [loaded [chunks rng]]. cbn in *.
    intros k c [Hc _]%map_lookup_filter_Some. by apply (Hloop k).
  - unfold placeBlock.
    destruct ((py p <? 0) || (py p >? MAX_HEIGHT + 20)); [done|].
    destruct (isWater t); [done|].
    set (coord := getChunkCoord (px p) (pz p)).
    destruct (getOrGenerateChunk_generated (coord_x coord) (coord_z coord) st Hst)
      as [Hs Hc].
    destruct (getOrGenerateChunk noiseHeight (coord_x coord) (coord_z coord) st)
      as [c [chunks rng]].
    cbn in *. by apply AllGenerated_insert.
  - cbn. unfold removeBlock. fold (homeKey p).
    destruct (st.1 !! homeKey p) as [c|] eqn:Hc; [|done].
    apply AllGenerated_insert; [done|]. cbn. by apply (Hst _ _ Hc).
  - cbn. destruct data as [v|[entries|]|records]; cbn; [done| |done|].
    + apply loadChunks_generated, AllGenerated_empty.
    + apply loadRecords_generated, AllGenerated_empty.
  - apply AllGenerated_empty.
Qed.

Lemma run_generated (ops : list Operation) (rng : RandomSource) :
  AllGenerated (run noiseHeight ops rng).1.
Proof.
  unfold run.
  assert (AllGenerated (∅ : gmap string Chunk, rng).1) as Hinit
    by apply AllGenerated_empty.
  revert Hinit. generalize (∅ : gmap string Chunk, rng).
  induction ops as [|op ops IH]; intros st Hst; cbn; [done|].
  apply IH. by apply step_generated.
Qed.

End Generated.

(** ** Snapshot and restore *)

Lemma foldl_insert_map_to_list {A} (m : gmap string A) :
  foldl (λ acc (kv : string * A), <[kv.1 := kv.2]> acc) ∅ (map_to_list m) = m.
Proof.
  assert (∀ l : list (string * A),
            foldl (λ acc (kv : string * A), <[kv.1 := kv.2]> acc) ∅ l
            = (list_to_map (reverse l) : gmap string A)) as Hrev.
  { induction l as [|[k v] l IH] using rev_ind; [done|].
    by rewrite foldl_app, reverse_snoc, IH. }
  rewrite Hrev.
  rewrite <- (list_to_map_to_list m) at 2.
  symmetry. apply list_to_map_proper.
  - apply NoDup_fst_map_to_list.
  - symmetry. apply reverse_Permutation.
Qed.

Lemma loadEntries_map_to_list {A} (m : gmap string A) :
  loadEntries (EntryList (map_to_list m)) = inl m.
Proof. cbn. by rewrite foldl_insert_map_to_list. Qed.

Lemma loadChunk_chunkRecord (kc : string * Chunk) :
  generated kc.2 = true → loadChunk (chunkRecord kc).2 = inl kc.2.
Proof.
  destruct kc as [k [x z bs ws g]]. cbn [snd generated]. intros ->.
  unfold loadChunk, chunkRecord.
  cbn [snd data_blocks data_waterBlocks data_x data_z data_generated
       blocks waterBlocks chunk_x chunk_z generated].
  by rewrite !loadEntries_map_to_list.
Qed.

Lemma loadChunks_records (l : list (string * Chunk)) (acc : gmap string Chunk) :
  Forall (λ kc, generated kc.2 = true) l →
  loadChunks (chunkRecord <$> l) acc
  = (foldl (λ m (kc : string * Chunk), <[kc.1 := kc.2]> m) acc l, Normal).
Proof.
  intros Hl. revert acc. induction Hl as [|kc l Hkc _ IH]; intros acc; [done|].
  cbn [fmap list_fmap loadChunks foldl].
  destruct (chunkRecord kc) as [key data] eqn:Hrec.
  assert (key = kc.1) as -> by (by destruct kc; injection Hrec).
  assert (loadChunk data = inl kc.2) as ->.
  { rewrite <- (loadChunk_chunkRecord kc Hkc). by rewrite Hrec. }
  apply IH.
Qed.

Lemma restore_snapshot (chunks other : gmap string Chunk) :
  AllGenerated chunks →
  loadWorldData (getWorldData chunks) other = (chunks, Normal).
Proof.
  intros Hgen. unfold getWorldData, loadWorldData.
  rewrite loadChunks_records.
  - by rewrite foldl_insert_map_to_list.
  - apply Forall_forall. intros [k c] Hkc%elem_of_map_to_list. by apply (Hgen k).
Qed.


(** C7. Round trip of the flattened lists: for every world built by a
    sequence of operations, the restored snapshot lists the same solid
    blocks and the same water blocks as the world itself. *)
Theorem snapshot_restore_flattened (noiseHeight : Z → Z → Z)
    (ops : list Operation) (rng : RandomSource) (current : gmap string Chunk) :
  let chunks := (run noiseHeight ops rng).1 in
  let restored := (loadWorldData (getWorldData chunks) current).1 in
  getAllLoadedBlocks restored ≡ₚ getAllLoadedBlocks chunks ∧
  getAllLoadedWaterBlocks restored ≡ₚ getAllLoadedWaterBlocks chunks.
Proof.
  intros chunks restored. subst restored.
  rewrite restore_snapshot by apply run_generated. done.
Qed.

(** ** Restoring a malformed payload *)

Lemma loadWorldData_no_chunks (v : JsValue) (chunks : gmap string Chunk) :
  loadWorldData (NoData v) chunks = (chunks, Normal) ∧
  loadWorldData (Data None) chunks = (chunks, Normal).
Proof. done. Qed.

Lemma WorldManager_loadWorldData_falsy (noiseHeight : Z → Z → Z) (v : JsValue)
    (st : gmap string Chunk * RandomSource) :
  truthy v = false →
  WorldManager.loadWorldData noiseHeight (NoData v) st
  = (WorldManager.generateTerrain noiseHeight st, Normal).
Proof. unfold WorldManager.loadWorldData. cbn. by intros ->. Qed.

Lemma loadEntries_missing {A} (v : JsValue) :
  truthy v = false → loadEntries (NotAList v : EntriesField A) = inl ∅.
Proof. cbn. by intros ->. Qed.

(** C3. A payload whose chunk record holds a non-list value in its blocks
    field makes the restore raise: the cache it was called on has already
    been cleared, and only the records before the malformed one are
    loaded. *)
Theorem loadWorldData_corrupt_throws (noiseHeight : Z → Z → Z)
    (chunks : gmap string Chunk) (rng : RandomSource) :
  loadWorldData corruptSave chunks
  = ({[ "0,0"%string := emptyChunk 0 0 true ]},
     Throw "TypeError: forEach is not a function") ∧
  WorldManager.loadWorldData noiseHeight corruptSave (chunks, rng)
  = (({[ "0,0"%string := emptyChunk 0 0 true ]}, rng),
     Throw "TypeError: forEach is not a function").
Proof. done. Qed.

(** ** Placement and removal *)

(** C8. Placing a non-water block at a height in [0, 420] when the chunk
    of the position is not cached generates that chunk, caches it and
    records the block in it (removing any water of the position). *)
Theorem placeBlock_generates_chunk (noiseHeight : Z → Z → Z) (p : Position)
    (t : BlockType) (chunks : gmap string Chunk) (rng : RandomSource) :
  0 ≤ py p ≤ MAX_HEIGHT + 20 →
  t ≠ water →
  chunks !! homeKey p = None →
  let chunkCoord := getChunkCoord (px p) (pz p) in
  let fresh := generateChunk noiseHeight (coord_x chunkCoord) (coord_z chunkCoord) rng in
  let chunk :=
    {| chunk_x := chunk_x fresh.1; chunk_z := chunk_z fresh.1;
       blocks := <[keyOf p := {| position := p; type := t |}]> (blocks fresh.1);
       waterBlocks := delete (keyOf p) (waterBlocks fresh.1);
       generated := generated fresh.1 |} in
  placeBlock noiseHeight p t (chunks, rng) = (<[homeKey p := chunk]> chunks, fresh.2)
  ∧ (placeBlock noiseHeight p t (chunks, rng)).1 !! homeKey p = Some chunk
  ∧ blocks chunk !! keyOf p = Some {| position := p; type := t |}.
Proof.
  intros Hy Ht Hnone chunkCoord fresh chunk.
  assert (placeBlock noiseHeight p t (chunks, rng)
          = (<[homeKey p := chunk]> chunks, fresh.2)) as Heq.
  { unfold placeBlock.
    destruct (Z.ltb_spec (py p) 0); [lia|].
    destruct (Z.gtb_spec (py p) (MAX_HEIGHT + 20)); [lia|]. cbn [orb].
    assert (isWater t = false) as -> by (by destruct t).
    unfold getOrGenerateChunk.
    change (getChunkKey _ _) with (homeKey p). rewrite Hnone.
    subst chunk fresh chunkCoord.
    destruct (generateChunk noiseHeight _ _ rng) as [c rng'].
    cbn [fst snd]. by rewrite insert_insert_eq. }
  split; [done|]. rewrite Heq. cbn [fst]. split.
  - apply lookup_insert_eq.
  - cbn. apply lookup_insert_eq.
Qed.

Lemma placeBlock_generates_chunk_witness :
  let p := {| px := 3; py := 25; pz := 3 |} in
  let fresh := generateChunk sampleHeight 0 0 (drawsThen [] (1 # 2)) in
  let chunk :=
    {| chunk_x := chunk_x fresh.1; chunk_z := chunk_z fresh.1;
       blocks := <[keyOf p := {| position := p; type := stone |}]> (blocks fresh.1);
       waterBlocks := delete (keyOf p) (waterBlocks fresh.1);
       generated := generated fresh.1 |} in
  placeBlock sampleHeight p stone (∅, drawsThen [] (1 # 2))
    = (<[homeKey p := chunk]> ∅, fresh.2)
  ∧ (placeBlock sampleHeight p stone (∅, drawsThen [] (1 # 2))).1 !! homeKey p
    = Some chunk
  ∧ blocks chunk !! keyOf p = Some {| position := p; type := stone |}.
Proof.
  apply (placeBlock_generates_chunk sampleHeight {| px := 3; py := 25; pz := 3 |}
           stone ∅ (drawsThen [] (1 # 2))).
  - cbn. unfold MAX_HEIGHT. lia.
  - discriminate.
  - apply lookup_empty.
Defined.

(** C10. Removing at a position at or below sea level whose chunk is
    cached leaves a full-level water block at that position, whether or
    not a solid block was there before. *)
Theorem removeBlock_leaves_water (p : Position) (chunks : gmap string Chunk)
    (c : Chunk) :
  chunks !! homeKey p = Some c →
  py p ≤ SEA_LEVEL →
  ∃ c', removeBlock p chunks !! homeKey p = Some c' ∧
        waterBlocks c' !! keyOf p = Some {| wposition := p; level := 1 |} ∧
        blocks c' !! keyOf p = None.
Proof.
  intros Hc Hy. unfold removeBlock. fold (homeKey p). rewrite Hc.
  eexists. split; [apply lookup_insert_eq|]. cbn. split.
  - destruct (Z.leb_spec (py p) SEA_LEVEL); [|lia]. apply lookup_insert_eq.
  - apply lookup_delete_eq.
Qed.

Lemma removeBlock_leaves_water_witness :
  let p := {| px := 0; py := 10; pz := 0 |} in
  let chunks : gmap string Chunk := {[ "0,0"%string := emptyChunk 0 0 true ]} in
  blocks (emptyChunk 0 0 true) !! keyOf p = None ∧
  ∃ c', removeBlock p chunks !! homeKey p = Some c' ∧
        waterBlocks c' !! keyOf p = Some {| wposition := p; level := 1 |} ∧
        blocks c' !! keyOf p = None.
Proof.
  split; [reflexivity|].
  apply (removeBlock_leaves_water {| px := 0; py := 10; pz := 0 |}
           {[ "0,0"%string := emptyChunk 0 0 true ]} (emptyChunk 0 0 true)).
  - reflexivity.
  - unfold SEA_LEVEL. cbn. lia.
Defined.

(** ** Ground height *)

Lemma scanDown_none (index : gmap string Block) (blockX blockZ : Z)
    (n : nat) (y : Z) :
  (∀ y', y - Z.of_nat n < y' ≤ y → index !! positionKey blockX y' blockZ = None) →
  scanDown index blockX blockZ n y = PLAYER_HEIGHT.
Proof.
  revert y. induction n as [|n IH]; intros y Hnone; [done|].
  cbn [scanDown]. rewrite (Hnone y) by lia.
  rewrite bool_decide_eq_false_2 by (by intros [? ?]).
  apply IH. intros y' Hy'. apply Hnone. lia.
Qed.

Lemma scanDown_found (index : gmap string Block) (blockX blockZ : Z)
    (n : nat) (y y0 : Z) :
  y - Z.of_nat n < y0 ≤ y →
  is_Some (index !! positionKey blockX y0 blockZ) →
  (∀ y', y0 < y' ≤ y → index !! positionKey blockX y' blockZ = None) →
  scanDown index blockX blockZ n y
  = (inject_Z (y0 + 1) * BLOCK_SIZE + PLAYER_HEIGHT)%Q.
Proof.
  revert y. induction n as [|n IH]; intros y Hy Hsome Hnone; [lia|].
  cbn [scanDown]. destruct (decide (y0 = y)) as [->|Hne].
  - by rewrite bool_decide_eq_true_2.
  - rewrite (Hnone y) by lia.
    rewrite bool_decide_eq_false_2 by (by intros [? ?]).
    apply IH; [lia|done|]. intros y' Hy'. apply Hnone. lia.
Qed.

(** C9. Ground height: when the column of [(x, z)] has an occupied cell
    at some height in [-10, 200], the result is one block above the highest
    such cell plus the observer height; otherwise it is the observer
    height 1.0. *)
Theorem getGroundHeight_highest (index : gmap string Block) (x z : Q) :
  let blockX := Qfloor (x / BLOCK_SIZE) in
  let blockZ := Qfloor (z / BLOCK_SIZE) in
  (∀ y0, -10 ≤ y0 ≤ 200 →
     is_Some (index !! positionKey blockX y0 blockZ) →
     (∀ y, y0 < y ≤ 200 → index !! positionKey blockX y blockZ = None) →
     getGroundHeight index x z = (inject_Z (y0 + 1) * (5 # 10) + 1)%Q)
  ∧ ((∀ y, -10 ≤ y ≤ 200 → index !! positionKey blockX y blockZ = None) →
     getGroundHeight index x z = 1%Q).
Proof.
  intros blockX blockZ. split.
  - intros y0 Hy0 Hsome Hnone. unfold getGroundHeight.
    by apply scanDown_found; [lia|..].
  - intros Hnone. unfold getGroundHeight.
    apply scanDown_none. intros y Hy. apply Hnone. lia.
Qed.

Lemma updateBlocks_single_lookup (b : Block) (x y z : Z) :
  {| px := x; py := y; pz := z |} ≠ position b →
  updateBlocks [b] !! positionKey x y z = None.
Proof.
  intros Hne. cbn. rewrite lookup_insert_ne; [done|].
  intros Hk. apply Hne. symmetry. by apply keyOf_inj.
Qed.

(** With a stone block at (0,5,0) the ground height at (0,0) is 4.0. *)
Lemma getGroundHeight_highest_witness :
  getGroundHeight (updateBlocks [stoneAt050]) 0 0
    = (inject_Z (5 + 1) * (5 # 10) + 1)%Q
  ∧ (inject_Z (5 + 1) * (5 # 10) + 1 == 4)%Q.
Proof.
  split; [|reflexivity].
  apply (proj1 (getGroundHeight_highest (updateBlocks [stoneAt050]) 0 0) 5).
  - lia.
  - by eexists.
  - intros y Hy. apply updateBlocks_single_lookup. cbn. intros [= ->]. lia.
Defined.

(** ** Collision resolution *)

(** C5. The resolver does not restore an axis on every overlap.  With the
    single cell (0,0,0) occupied, the observer at (-0.9, 0.5, 0) moves by
    (0.5, 0, 0.2).  At the X test position the observer's box overlaps the
    box of the cell, and from the restored x the Z move would not; yet the
    scan of [hasCollisionAtPosition] stops at cell -1 on the X axis, the
    test reports no collision, and the returned position has the moved x,
    -0.4, inside the box of the cell. *)
Theorem checkCollision_misses_overlap :
  let index := updateBlocks [originBlock] in
  let pos := {| vx := - (9 # 10); vy := 5 # 10; vz := 0 |} in
  let velocity := {| vx := 5 # 10; vy := 0; vz := 2 # 10 |} in
  let testPosX :=
    {| vx := vx pos + vx velocity; vy := vy pos; vz := vz pos |}%Q in
  let restoredZ :=
    {| vx := vx pos; vy := vy pos + vy velocity; vz := vz pos + vz velocity |}%Q in
  let playerBox := getPlayerBoundingBox testPosX in
  intersectsBox playerBox (getBlockBoundingBox 0 0 0) = true
  ∧ intersectsBox (getPlayerBoundingBox restoredZ) (getBlockBoundingBox 0 0 0)
    = false
  ∧ Math_floor (fx (box_max playerBox) / double BLOCK_SIZE) = -1
  ∧ hasCollisionAtPosition index testPosX = false
  ∧ checkCollision index pos velocity
    = {| vx := vx pos + vx velocity; vy := vy pos + vy velocity;
         vz := vz pos + vz velocity |}%Q
  ∧ (vx (checkCollision index pos velocity) == - (4 # 10))%Q
  ∧ ¬ (vx (checkCollision index pos velocity) == vx pos)%Q.
Proof.
  cbv zeta. repeat split; try (vm_compute; reflexivity).
  vm_compute. discriminate.
Qed.

(** Where the scan does reach the cell the move slides as intended: from
    the same position, a move by (0.7, 0, 0.2) has its X test position
    inside the scanned range, x is restored and the Z component is applied
    in full. *)
Example checkCollision_slides :
  let index := updateBlocks [originBlock] in
  let pos := {| vx := - (9 # 10); vy := 5 # 10; vz := 0 |} in
  let velocity := {| vx := 7 # 10; vy := 0; vz := 2 # 10 |} in
  hasCollisionAtPosition index
    {| vx := vx pos + vx velocity; vy := vy pos; vz := vz pos |}%Q = true
  ∧ checkCollision index pos velocity
    = {| vx := vx pos; vy := vy pos + vy velocity; vz := vz pos + vz velocity |}%Q.
Proof. cbv zeta. split; vm_compute; reflexivity. Qed.

(** ** Loops and comparisons *)

Lemma anyInRange_true (lo hi : Z) (test : Z → bool) :
  anyInRange lo hi test = true ↔ ∃ i, lo ≤ i ≤ hi ∧ test i = true.
Proof.
  unfold anyInRange. rewrite existsb_exists. split.
  - intros (i & Hi & Ht). exists i. split; [|done].
    apply list_elem_of_In, elem_of_seqZ in Hi. lia.
  - intros (i & Hi & Ht). exists i. split; [|done].
    apply list_elem_of_In, elem_of_seqZ. lia.
Qed.

Lemma Qltb_true (a b : Q) : Qltb a b = true ↔ (a < b)%Q.
Proof.
  unfold Qltb. rewrite negb_true_iff, <- not_true_iff_false, Qle_bool_iff.
  split; [apply Qnot_le_lt | apply Qlt_not_le].
Qed.

Lemma Qltb_false (a b : Q) : Qltb a b = false ↔ (b <= a)%Q.
Proof.
  unfold Qltb. by rewrite negb_false_iff, Qle_bool_iff.
Qed.


(** ** Consequences for the flattened lists *)

Lemma elem_of_getAllLoadedBlocks (chunks : gmap string Chunk) (key k : string)
    (c : Chunk) (b : Block) :
  chunks !! key = Some c → generated c = true → blocks c !! k = Some b →
  b ∈ getAllLoadedBlocks chunks.
Proof.
  intros Hc Hg Hb. unfold getAllLoadedBlocks.
  apply list_elem_of_bind. exists (key, c). split.
  - cbn. rewrite Hg. apply list_elem_of_fmap. exists (k, b).
    split; [done|]. by apply elem_of_map_to_list.
  - by apply elem_of_map_to_list.
Qed.

(** The stray leaf survives a removal at its own position, even with the
    chunk of that position loaded: [removeBlock] looks for it in chunk
    (-1,-1), while generation stored it in chunk (0,0). *)
Lemma stray_leaf_not_removable :
  strayLeaf ∈ getAllLoadedBlocks (run sampleHeight straySession treeDraws).1.
Proof.
  assert ((run sampleHeight straySession treeDraws).1 !! "0,0"%string
            ≫= (λ c, if generated c then blocks c !! positionKey (-1) 32 (-2)
                     else None)
          = Some strayLeaf) as Hfound.
  { vm_compute. reflexivity. }
  revert Hfound. generalize (run sampleHeight straySession treeDraws).1.
  intros chunks Hfound.
  destruct (chunks !! "0,0"%string) as [c|] eqn:Hc; [|done].
  cbn in Hfound. destruct (generated c) eqn:Hg; [|done].
  exact (elem_of_getAllLoadedBlocks chunks _ _ c strayLeaf Hc Hg Hfound).
Qed.

(** The restore marks every chunk generated, whatever flag the payload
    carries; the round trip is exact because no reachable chunk carries
    [false]. *)
Lemma restore_marks_generated (current : gmap string Chunk) :
  loadWorldData (getWorldData {[ "0,0"%string := emptyChunk 0 0 false ]}) current
  = ({[ "0,0"%string := emptyChunk 0 0 true ]}, Normal).
Proof. vm_compute. reflexivity. Qed.

(** A chunk record whose entry fields are missing loads as an empty
    chunk, without an exception. *)
Lemma loadChunk_missing_fields (x z : Z) (g : JsValue) :
  loadChunk {| data_x := x; data_z := z; data_blocks := NotAList JsUndefined;
               data_waterBlocks := NotAList JsUndefined; data_generated := g |}
  = inl (emptyChunk x z true).
Proof. unfold loadChunk. cbn. by rewrite truthy_jsOr_true. Qed.

(** * Further properties of the code *)

(** ** Chunk coordinates and keys *)

(** X1. [getChunkCoord] floors towards minus infinity: the chunk
    coordinate [c] of a block coordinate [x] satisfies
    [8 c <= x < 8 c + 8], for negative coordinates too. *)
Theorem getChunkCoord_floor (x z : Z) :
  let c := getChunkCoord x z in
  CHUNK_SIZE * coord_x c ≤ x < CHUNK_SIZE * coord_x c + CHUNK_SIZE ∧
  CHUNK_SIZE * coord_z c ≤ z < CHUNK_SIZE * coord_z c + CHUNK_SIZE.
Proof.
  cbv zeta. rewrite getChunkCoord_div. unfold CHUNK_SIZE. cbn [coord_x coord_z].
  pose proof (Z.mod_pos_bound x 8). pose proof (Z.mod_pos_bound z 8).
  pose proof (Z.div_mod x 8). pose proof (Z.div_mod z 8). lia.
Qed.

(** X2. [getLocalCoord] returns the offset inside the chunk: a value in
    [0, 8) that, added to eight times the chunk coordinate, gives back the
    world coordinate, also for negative coordinates where [%] is negative. *)
Theorem getLocalCoord_offset (x z : Z) :
  0 ≤ getLocalCoord x < CHUNK_SIZE ∧
  x = CHUNK_SIZE * coord_x (getChunkCoord x z) + getLocalCoord x.
Proof.
  rewrite getChunkCoord_div. unfold getLocalCoord, CHUNK_SIZE. cbn [coord_x].
  pose proof (Z.rem_bound_abs x 8 ltac:(lia)) as Hb.
  pose proof (Z.quot_rem' x 8) as Hq.
  assert (0 ≤ Z.rem x 8 + 8) as Hnn by lia.
  rewrite (Z.rem_mod_nonneg (Z.rem x 8 + 8) 8) by lia.
  assert ((Z.rem x 8 + 8) `mod` 8 = x `mod` 8) as ->.
  { replace (Z.rem x 8 + 8) with (x + (1 - x ÷ 8) * 8) by lia.
    apply Z.mod_add. lia. }
  pose proof (Z.mod_pos_bound x 8). pose proof (Z.div_mod x 8). lia.
Qed.

(** X3. Block and water keys determine the position: two positions with
    the same key string are equal. *)
Theorem positionKey_determines_position (x y z x' y' z' : Z) :
  positionKey x y z = positionKey x' y' z' ↔ x = x' ∧ y = y' ∧ z = z'.
Proof.
  split; [apply positionKey_inj|]. by intros (-> & -> & ->).
Qed.

(** X4. Chunk keys determine the chunk coordinate. *)
Theorem getChunkKey_determines_chunk (x z x' z' : Z) :
  getChunkKey x z = getChunkKey x' z' ↔ x = x' ∧ z = z'.
Proof.
  split; [apply getChunkKey_inj|]. by intros (-> & ->).
Qed.

(** ** What a generation pass stores *)

Lemma terrainType_facts (y h : Z) :
  terrainType y h ≠ water ∧ terrainType y h ≠ wood ∧
  (terrainType y h = dirt → y ≠ h).
Proof.
  unfold terrainType. destruct (Z.eqb_spec y h) as [->|Hne].
  - by repeat case_match.
  - by repeat case_match.
Qed.

Section GenerationContents.

Variable noiseHeight : Z → Z → Z.

(** Blocks once stored stay stored: the pass only inserts. *)
Lemma setBlockInChunk_keeps_block (p : Position) (c : Chunk) (x y z : Z)
    (t : BlockType) :
  hasBlockAt p c → hasBlockAt p (setBlockInChunk c x y z t).
Proof.
  intros [b Hb]. unfold hasBlockAt. cbn. rewrite lookup_insert.
  case_decide; eauto.
Qed.

Lemma placeLeaf_keeps_block (p : Position) (worldX worldZ top leafX leafZ : Z)
    (st : Chunk * RandomSource) :
  hasBlockAt p st.1 → hasBlockAt p (placeLeaf worldX worldZ top leafX leafZ st).1.
Proof.
  destruct st as [c rng]. cbn [fst]. intros Hp. unfold placeLeaf.
  destruct (random rng) as [r rng1].
  destruct (Qltb r (7 # 10) && negb ((leafX =? worldX) && (leafZ =? worldZ))); [|done].
  destruct (random rng1) as [r2 rng2].
  destruct (Qltb r2 (5 # 10)); cbn [fst]; repeat apply setBlockInChunk_keeps_block; done.
Qed.

Lemma placeTree_keeps_block (p : Position) (worldX worldZ clampedHeight : Z)
    (st : Chunk * RandomSource) :
  hasBlockAt p st.1 → hasBlockAt p (placeTree worldX worldZ clampedHeight st).1.
Proof.
  destruct st as [c rng]. cbn [fst]. intros Hp. unfold placeTree.
  destruct (random rng) as [r rng1].
  apply (forRange_invariant (λ st', hasBlockAt p st'.1)).
  - cbn [fst]. apply (forRange_invariant (hasBlockAt p)); [done|].
    intros y c' _ Hc'. by apply setBlockInChunk_keeps_block.
  - intros leafX st' _ Hst'.
    apply (forRange_invariant (λ st'', hasBlockAt p st''.1)); [done|].
    intros leafZ st'' _ Hst''. by apply placeLeaf_keeps_block.
Qed.

(** The part of [generateColumn] after the terrain loop keeps blocks. *)
Lemma generateColumn_keeps_block (p : Position) (worldX worldZ : Z)
    (st : Chunk * RandomSource) :
  hasBlockAt p st.1 → hasBlockAt p (generateColumn noiseHeight worldX worldZ st).1.
Proof.
  destruct st as [c rng]. cbn [fst]. intros Hp. unfold generateColumn.
  set (h := clampHeight (noiseHeight worldX worldZ)).
  assert (hasBlockAt p (forRange 0 h
    (λ y c0, setBlockInChunk c0 worldX y worldZ (terrainType y h)) c)) as H1.
  { apply (forRange_invariant (hasBlockAt p)); [done|].
    intros y c' _ Hc'. by apply setBlockInChunk_keeps_block. }
  set (c1 := forRange 0 h _ c) in *.
  assert (hasBlockAt p (if h <? SEA_LEVEL
              then forRange (h + 1) SEA_LEVEL
                     (λ y c0, setWaterBlockInChunk c0 worldX y worldZ 1) c1
              else c1)) as H2.
  { destruct (h <? SEA_LEVEL); [|done].
    by apply (forRange_invariant (hasBlockAt p)). }
  set (c2 := if h <? SEA_LEVEL then _ else c1) in *.
  destruct ((h >? SEA_LEVEL + 2) && (h <? SEA_LEVEL + 40)); [|done].
  destruct (random rng) as [r rng1].
  destruct (Qltb r (3 # 100)); [|done].
  by apply (placeTree_keeps_block p worldX worldZ h (c2, rng1)).
Qed.

Lemma generateColumn_lays_block (worldX worldZ y : Z) (st : Chunk * RandomSource) :
  0 ≤ y ≤ clampHeight (noiseHeight worldX worldZ) →
  hasBlockAt {| px := worldX; py := y; pz := worldZ |}
    (generateColumn noiseHeight worldX worldZ st).1.
Proof.
  destruct st as [c rng]. intros Hy. unfold generateColumn.
  set (h := clampHeight (noiseHeight worldX worldZ)) in *.
  set (p := {| px := worldX; py := y; pz := worldZ |}).
  assert (hasBlockAt p (forRange 0 h
    (λ y c0, setBlockInChunk c0 worldX y worldZ (terrainType y h)) c)) as H1.
  { apply (forRange_establish (λ _, True) (hasBlockAt p) _ _ y); [lia|done..| |].
    - intros c' _. eexists. cbn. apply lookup_insert_eq.
    - intros j c' _ _ Hc'. by apply setBlockInChunk_keeps_block. }
  set (c1 := forRange 0 h _ c) in *.
  assert (hasBlockAt p (if h <? SEA_LEVEL
              then forRange (h + 1) SEA_LEVEL
                     (λ y c0, setWaterBlockInChunk c0 worldX y worldZ 1) c1
              else c1)) as H2.
  { destruct (h <? SEA_LEVEL); [|done].
    by apply (forRange_invariant (hasBlockAt p)). }
  set (c2 := if h <? SEA_LEVEL then _ else c1) in *.
  destruct ((h >? SEA_LEVEL + 2) && (h <? SEA_LEVEL + 40)); [|done].
  destruct (random rng) as [r rng1].
  destruct (Qltb r (3 # 100)); [|done].
  by apply (placeTree_keeps_block p worldX worldZ h (c2, rng1)).
Qed.

Lemma generateChunk_lays_block (chunkX chunkZ x y z : Z) (rng : RandomSource) :
  inChunk chunkX chunkZ {| px := x; py := y; pz := z |} →
  0 ≤ y ≤ clampHeight (noiseHeight x z) →
  hasBlockAt {| px := x; py := y; pz := z |}
    (generateChunk noiseHeight chunkX chunkZ rng).1.
Proof.
  intros Hin Hy.
  destruct (inChunk_local _ _ _ Hin) as (localX & localZ & HlocalX & HlocalZ & Hx & Hz).
  cbn in Hx, Hz. subst x z.
  set (p := {| px := _; py := y; pz := _ |}).
  unfold generateChunk.
  apply (forRange_establish (λ _, True) (λ st, hasBlockAt p st.1) _ _ localX);
    [done..| |].
  - intros st _.
    apply (forRange_establish (λ _, True) (λ st, hasBlockAt p st.1) _ _ localZ);
      [done..| |].
    + intros st' _. by apply generateColumn_lays_block.
    + intros j st' _ _ Hst'. by apply generateColumn_keeps_block.
  - intros i st _ _ Hst.
    apply (forRange_invariant (λ st, hasBlockAt p st.1)); [done|].
    intros j st' _ Hst'. by apply generateColumn_keeps_block.
Qed.

(** Materials: wood only above the surface, dirt only below it. *)
Lemma setBlockInChunk_types (c : Chunk) (x y z : Z) (t : BlockType) :
  GenTypesOk noiseHeight (blocks c) →
  t ≠ water →
  (t = wood → clampHeight (noiseHeight x z) < y) →
  (t = dirt → y < clampHeight (noiseHeight x z)) →
  GenTypesOk noiseHeight (blocks (setBlockInChunk c x y z t)).
Proof.
  intros Hc Hw Hwood Hdirt k b. cbn. rewrite lookup_insert. case_decide as Hk.
  - intros [= <-]. cbn. by subst.
  - apply Hc.
Qed.

Lemma placeLeaf_types (worldX worldZ top leafX leafZ : Z)
    (st : Chunk * RandomSource) :
  GenTypesOk noiseHeight (blocks st.1) →
  GenTypesOk noiseHeight (blocks (placeLeaf worldX worldZ top leafX leafZ st).1).
Proof.
  destruct st as [c rng]. cbn [fst]. intros Hc. unfold placeLeaf.
  destruct (random rng) as [r rng1].
  destruct (Qltb r (7 # 10) && negb ((leafX =? worldX) && (leafZ =? worldZ))); [|done].
  destruct (random rng1) as [r2 rng2].
  destruct (Qltb r2 (5 # 10)); cbn [fst];
    repeat (apply setBlockInChunk_types; [|done..]); done.
Qed.

Lemma placeTree_types (worldX worldZ : Z) (st : Chunk * RandomSource) :
  GenTypesOk noiseHeight (blocks st.1) →
  GenTypesOk noiseHeight
    (blocks (placeTree worldX worldZ (clampHeight (noiseHeight worldX worldZ)) st).1).
Proof.
  destruct st as [c rng]. cbn [fst]. intros Hc. unfold placeTree.
  destruct (random rng) as [r rng1].
  apply (forRange_invariant (λ st', GenTypesOk noiseHeight (blocks st'.1))).
  - cbn [fst].
    apply (forRange_invariant (λ c', GenTypesOk noiseHeight (blocks c'))); [done|].
    intros y c' Hy Hc'. apply setBlockInChunk_types; [done..|lia|done].
  - intros leafX st' _ Hst'.
    apply (forRange_invariant (λ st'', GenTypesOk noiseHeight (blocks st''.1))); [done|].
    intros leafZ st'' _ Hst''. by apply placeLeaf_types.
Qed.

Lemma generateColumn_types (worldX worldZ : Z) (st : Chunk * RandomSource) :
  GenTypesOk noiseHeight (blocks st.1) →
  GenTypesOk noiseHeight (blocks (generateColumn noiseHeight worldX worldZ st).1).
Proof.
  destruct st as [c rng]. cbn [fst]. intros Hc. unfold generateColumn.
  set (h := clampHeight (noiseHeight worldX worldZ)).
  assert (GenTypesOk noiseHeight (blocks (forRange 0 h
    (λ y c0, setBlockInChunk c0 worldX y worldZ (terrainType y h)) c))) as H1.
  { apply (forRange_invariant (λ c', GenTypesOk noiseHeight (blocks c'))); [done|].
    intros y c' Hy Hc'. destruct (terrainType_facts y h) as (Hw & Hwood & Hdirt).
    apply setBlockInChunk_types; [done..| |].
    - by intros ?.
    - intros Hd. apply Hdirt in Hd. fold h. lia. }
  set (c1 := forRange 0 h _ c) in *.
  assert (GenTypesOk noiseHeight (blocks (if h <? SEA_LEVEL
              then forRange (h + 1) SEA_LEVEL
                     (λ y c0, setWaterBlockInChunk c0 worldX y worldZ 1) c1
              else c1))) as H2.
  { destruct (h <? SEA_LEVEL); [|done].
    by apply (forRange_invariant (λ c', GenTypesOk noiseHeight (blocks c'))). }
  set (c2 := if h <? SEA_LEVEL then _ else c1) in *.
  destruct ((h >? SEA_LEVEL + 2) && (h <? SEA_LEVEL + 40)); [|done].
  destruct (random rng) as [r rng1].
  destruct (Qltb r (3 # 100)); [|done].
  by apply (placeTree_types worldX worldZ (c2, rng1)).
Qed.

Lemma generateChunk_types (chunkX chunkZ : Z) (rng : RandomSource) :
  GenTypesOk noiseHeight (blocks (generateChunk noiseHeight chunkX chunkZ rng).1).
Proof.
  unfold generateChunk.
  apply (forRange_invariant (λ st, GenTypesOk noiseHeight (blocks st.1))).
  - intros k b. cbn. by rewrite lookup_empty.
  - intros localX st _ Hst.
    apply (forRange_invariant (λ st, GenTypesOk noiseHeight (blocks st.1))); [done|].
    intros localZ st' _ Hst'. by apply generateColumn_types.
Qed.

(** X5. Columns are solid: in a generated chunk every column of the
    footprint holds a block at each height from 0 to its clamped surface
    height, stored with that position, whatever the random draws. *)
Theorem generateChunk_column_solid (chunkX chunkZ x y z : Z) (rng : RandomSource) :
  inChunk chunkX chunkZ {| px := x; py := y; pz := z |} →
  0 ≤ y ≤ clampHeight (noiseHeight x z) →
  ∃ b, blocks (generateChunk noiseHeight chunkX chunkZ rng).1 !! positionKey x y z
         = Some b
       ∧ position b = {| px := x; py := y; pz := z |}.
Proof.
  intros Hin Hy.
  destruct (generateChunk_lays_block chunkX chunkZ x y z rng Hin Hy) as [b Hb].
  exists b. split; [done|].
  destruct (generateChunk_types chunkX chunkZ rng _ _ Hb) as [Hk _].
  symmetry. by apply keyOf_inj.
Qed.

(** X6. Surface material: the block at the surface height of a column of
    a generated chunk is snow, stone, sand or grass, never dirt or wood,
    also when a canopy of a neighbouring tree reaches that cell. *)
Theorem generateChunk_surface_material (chunkX chunkZ x z : Z) (rng : RandomSource) :
  inChunk chunkX chunkZ {| px := x; py := 0; pz := z |} →
  ∃ b, blocks (generateChunk noiseHeight chunkX chunkZ rng).1
         !! positionKey x (clampHeight (noiseHeight x z)) z = Some b
       ∧ isSurfaceType (type b) = true.
Proof.
  intros Hin.
  set (h := clampHeight (noiseHeight x z)).
  assert (0 ≤ h ≤ h) as Hh by (subst h; unfold clampHeight; lia).
  destruct (generateChunk_lays_block chunkX chunkZ x h z rng Hin Hh) as [b Hb].
  exists b. split; [done|].
  destruct (generateChunk_types chunkX chunkZ rng _ _ Hb) as (Hk & Hw & Hwood & Hdirt).
  apply keyOf_inj in Hk. rewrite <- Hk in Hwood, Hdirt. cbn in Hwood, Hdirt.
  fold h in Hwood, Hdirt.
  destruct (type b); try done.
  - specialize (Hdirt eq_refl). lia.
  - specialize (Hwood eq_refl). lia.
Qed.

End GenerationContents.

Lemma generateChunk_column_solid_witness :
  ∃ b, blocks (generateChunk sampleHeight 0 0 treeDraws).1 !! positionKey 3 17 5
         = Some b
       ∧ position b = {| px := 3; py := 17; pz := 5 |}.
Proof.
  apply (generateChunk_column_solid sampleHeight 0 0 3 17 5 treeDraws).
  - reflexivity.
  - change (clampHeight (sampleHeight 3 5)) with 29. lia.
Defined.

Lemma generateChunk_surface_material_witness :
  ∃ b, blocks (generateChunk sampleHeight 0 0 treeDraws).1
         !! positionKey 3 (clampHeight (sampleHeight 3 5)) 5 = Some b
       ∧ isSurfaceType (type b) = true.
Proof.
  apply (generateChunk_surface_material sampleHeight 0 0 3 5 treeDraws).
  reflexivity.
Defined.

Lemma Qfloor_le_iff (q : Q) (i : Z) : Qfloor q ≤ i ↔ (q < inject_Z (i + 1))%Q.
Proof.
  split; intros H.
  - apply Qlt_le_trans with (1 := Qlt_floor q). rewrite <- Zle_Qle. lia.
  - assert (inject_Z (Qfloor q) < inject_Z (i + 1))%Q as H2.
    { eapply Qle_lt_trans; [apply Qfloor_le|done]. }
    rewrite <- Zlt_Qlt in H2. lia.
Qed.

Lemma treeHeight_upper (r : Q) : (r < 1)%Q → 6 + Qfloor (r * 4) ≤ 9.
Proof.
  intros Hr. assert (Qfloor (r * 4) ≤ 3) as H; [|lia].
  apply Qfloor_le_iff. change (inject_Z (3 + 1)) with 4%Q. lra.
Qed.

Section GenerationLayout.

Variable noiseHeight : Z → Z → Z.
Variables chunkX chunkZ : Z.

Abbreviation WaterOk := (GenWaterOk noiseHeight chunkX chunkZ).
Abbreviation LayoutOk := (GenLayoutOk noiseHeight chunkX chunkZ).
Abbreviation LayoutState := (GenLayoutState noiseHeight chunkX chunkZ).

(** Water: only the water loop of a column writes water. *)
Lemma generateColumn_water_ok (worldX worldZ : Z) (st : Chunk * RandomSource) :
  inChunk chunkX chunkZ {| px := worldX; py := 0; pz := worldZ |} →
  WaterOk (waterBlocks st.1) →
  WaterOk (waterBlocks (generateColumn noiseHeight worldX worldZ st).1).
Proof.
  destruct st as [c rng]. cbn [fst]. intros Hin Hc. unfold generateColumn.
  set (h := clampHeight (noiseHeight worldX worldZ)).
  assert (WaterOk (waterBlocks (forRange 0 h
    (λ y c0, setBlockInChunk c0 worldX y worldZ (terrainType y h)) c))) as H1.
  { by apply (forRange_invariant (λ c', WaterOk (waterBlocks c'))). }
  set (c1 := forRange 0 h _ c) in *.
  assert (WaterOk (waterBlocks (if h <? SEA_LEVEL
              then forRange (h + 1) SEA_LEVEL
                     (λ y c0, setWaterBlockInChunk c0 worldX y worldZ 1) c1
              else c1))) as H2.
  { destruct (h <? SEA_LEVEL); [|done].
    apply (forRange_invariant (λ c', WaterOk (waterBlocks c'))); [done|].
    intros y c' Hy Hc' k w. cbn. rewrite lookup_insert. case_decide as Hk.
    - intros [= <-]. cbn. split; [by subst|]. fold h. repeat split; [done|lia..].
    - apply Hc'. }
  set (c2 := if h <? SEA_LEVEL then _ else c1) in *.
  destruct ((h >? SEA_LEVEL + 2) && (h <? SEA_LEVEL + 40)); [|done].
  destruct (random rng) as [r rng1].
  destruct (Qltb r (3 # 100)); [|done].
  by rewrite placeTree_water.
Qed.

Lemma generateChunk_water_ok (rng : RandomSource) :
  WaterOk (waterBlocks (generateChunk noiseHeight chunkX chunkZ rng).1).
Proof.
  unfold generateChunk.
  apply (forRange_invariant (λ st, WaterOk (waterBlocks st.1))).
  - intros k w. cbn. by rewrite lookup_empty.
  - intros localX st HlocalX Hst.
    apply (forRange_invariant (λ st, WaterOk (waterBlocks st.1))); [done|].
    intros localZ st' HlocalZ Hst'.
    apply generateColumn_water_ok; [|done]. by apply column_inChunk.
Qed.

(** The layout of the blocks, for draws in [0, 1). *)
Lemma setBlockInChunk_layout (c : Chunk) (x y z : Z) (t : BlockType) :
  LayoutOk (blocks c) →
  (inChunk chunkX chunkZ {| px := x; py := y; pz := z |} ∧
     0 ≤ y ≤ clampHeight (noiseHeight x z))
  ∨ (SEA_LEVEL + 4 ≤ y ≤ SEA_LEVEL + 50 ∧
     chunkX * CHUNK_SIZE - 2 ≤ x ≤ chunkX * CHUNK_SIZE + 9 ∧
     chunkZ * CHUNK_SIZE - 2 ≤ z ≤ chunkZ * CHUNK_SIZE + 9 ∧
     (t = wood ∨ t = grass)) →
  LayoutOk (blocks (setBlockInChunk c x y z t)).
Proof.
  intros Hc Hpos k b. cbn. rewrite lookup_insert. case_decide as Hk.
  - intros [= <-]. cbn. split; [by subst|done].
  - apply Hc.
Qed.

Lemma placeLeaf_layout (worldX worldZ top leafX leafZ : Z)
    (st : Chunk * RandomSource) :
  SEA_LEVEL + 3 ≤ top ≤ SEA_LEVEL + 48 →
  chunkX * CHUNK_SIZE - 2 ≤ leafX ≤ chunkX * CHUNK_SIZE + 9 →
  chunkZ * CHUNK_SIZE - 2 ≤ leafZ ≤ chunkZ * CHUNK_SIZE + 9 →
  LayoutState st → LayoutState (placeLeaf worldX worldZ top leafX leafZ st).
Proof.
  intros Htop HX HZ [Hc Hr]. destruct st as [c rng]. cbn in Hc, Hr.
  unfold placeLeaf.
  destruct (random_unit rng Hr) as [_ Hr1].
  destruct (random rng) as [r rng1]. cbn in Hr1.
  destruct (Qltb r (7 # 10) && negb ((leafX =? worldX) && (leafZ =? worldZ)));
    [|done].
  destruct (random_unit rng1 Hr1) as [_ Hr2].
  destruct (random rng1) as [r2 rng2]. cbn in Hr2.
  destruct (Qltb r2 (5 # 10)); (split; [cbn [fst]|done]);
    repeat (apply setBlockInChunk_layout;
            [|right; repeat split; [lia..|by right]]); done.
Qed.

Lemma placeTree_layout (worldX worldZ clampedHeight : Z)
    (st : Chunk * RandomSource) :
  SEA_LEVEL + 2 < clampedHeight < SEA_LEVEL + 40 →
  chunkX * CHUNK_SIZE ≤ worldX ≤ chunkX * CHUNK_SIZE + 7 →
  chunkZ * CHUNK_SIZE ≤ worldZ ≤ chunkZ * CHUNK_SIZE + 7 →
  LayoutState st → LayoutState (placeTree worldX worldZ clampedHeight st).
Proof.
  intros Hh HX HZ [Hc Hr]. destruct st as [c rng]. cbn in Hc, Hr.
  unfold placeTree.
  destruct (random_unit rng Hr) as [Hr0 Hr1].
  pose proof (proj2 (Hr 0%nat)) as Hr0'.
  destruct (random rng) as [r rng1] eqn:Hrand. cbn in Hr0, Hr1.
  assert (r = rng 0%nat) as Hr_eq by (by injection Hrand).
  rewrite <- Hr_eq in Hr0'.
  pose proof (treeHeight_lower r Hr0) as Hlo.
  pose proof (treeHeight_upper r Hr0') as Hhi.
  unfold SEA_LEVEL, CHUNK_SIZE in *.
  apply forRange_invariant.
  - split; [cbn [fst]|done].
    apply (forRange_invariant (λ c', LayoutOk (blocks c'))); [done|].
    intros y c' Hy Hc'. apply setBlockInChunk_layout; [done|right].
    unfold SEA_LEVEL, CHUNK_SIZE. repeat split; [lia..|by left].
  - intros leafX st' HleafX Hst'. apply forRange_invariant; [done|].
    intros leafZ st'' HleafZ Hst''.
    apply placeLeaf_layout; [unfold SEA_LEVEL, CHUNK_SIZE; lia..|done].
Qed.

Lemma generateColumn_layout (localX localZ : Z) (st : Chunk * RandomSource) :
  0 ≤ localX ≤ CHUNK_SIZE - 1 → 0 ≤ localZ ≤ CHUNK_SIZE - 1 →
  LayoutState st →
  LayoutState (generateColumn noiseHeight (chunkX * CHUNK_SIZE + localX)
                 (chunkZ * CHUNK_SIZE + localZ) st).
Proof.
  intros HlocalX HlocalZ [Hc Hr]. destruct st as [c rng]. cbn in Hc, Hr.
  pose proof (column_inChunk chunkX chunkZ localX localZ) as Hin.
  unfold generateColumn.
  set (worldX := chunkX * CHUNK_SIZE + localX) in *.
  set (worldZ := chunkZ * CHUNK_SIZE + localZ) in *.
  set (h := clampHeight (noiseHeight worldX worldZ)).
  assert (LayoutOk (blocks (forRange 0 h
    (λ y c0, setBlockInChunk c0 worldX y worldZ (terrainType y h)) c))) as H1.
  { apply (forRange_invariant (λ c', LayoutOk (blocks c'))); [done|].
    intros y c' Hy Hc'. apply setBlockInChunk_layout; [done|left].
    split; [by apply Hin|]. fold h. lia. }
  set (c1 := forRange 0 h _ c) in *.
  assert (LayoutOk (blocks (if h <? SEA_LEVEL
              then forRange (h + 1) SEA_LEVEL
                     (λ y c0, setWaterBlockInChunk c0 worldX y worldZ 1) c1
              else c1))) as H2.
  { destruct (h <? SEA_LEVEL); [|done].
    by apply (forRange_invariant (λ c', LayoutOk (blocks c'))). }
  set (c2 := if h <? SEA_LEVEL then _ else c1) in *.
  destruct ((h >? SEA_LEVEL + 2) && (h <? SEA_LEVEL + 40)) eqn:Htree; [|done].
  destruct (random_unit rng Hr) as [_ Hr1].
  destruct (random rng) as [r rng1]. cbn in Hr1.
  destruct (Qltb r (3 # 100)); [|done].
  apply andb_prop in Htree as [Hlo Hhi].
  apply placeTree_layout; [lia|subst worldX worldZ; unfold CHUNK_SIZE in *; lia..|done].
Qed.

Lemma generateChunk_layout_ok (rng : RandomSource) :
  unitDraws rng → LayoutState (generateChunk noiseHeight chunkX chunkZ rng).
Proof.
  intros Hr. unfold generateChunk.
  apply forRange_invariant.
  - split; [|done]. intros k b. cbn. by rewrite lookup_empty.
  - intros localX st HlocalX Hst. apply forRange_invariant; [done|].
    intros localZ st' HlocalZ Hst'. by apply generateColumn_layout.
Qed.

(** X7. Water of a generated chunk lies only where the sea fill puts it:
    every water entry is stored under the key of its position, inside the
    chunk footprint, strictly above the surface of its column and at or
    below sea level, at level 1, whatever the random draws. *)
Theorem generateChunk_water_only_sea_fill (rng : RandomSource) (k : string)
    (w : WaterBlock) :
  waterBlocks (generateChunk noiseHeight chunkX chunkZ rng).1 !! k = Some w →
  k = keyOf (wposition w) ∧
  inChunk chunkX chunkZ (wposition w) ∧
  clampHeight (noiseHeight (px (wposition w)) (pz (wposition w))) < py (wposition w) ∧
  py (wposition w) ≤ SEA_LEVEL ∧
  level w = 1%Q.
Proof. apply generateChunk_water_ok. Qed.

(** X8. Layout of the blocks of a generated chunk, for draws in [0, 1):
    every block is stored under the key of its position and is either
    terrain inside the footprint between y = 0 and the column height, or a
    tree block (wood or grass) between y = 24 and y = 70 whose column lies
    at most two cells outside the footprint. *)
Theorem generateChunk_block_layout (rng : RandomSource) (k : string) (b : Block) :
  unitDraws rng →
  blocks (generateChunk noiseHeight chunkX chunkZ rng).1 !! k = Some b →
  k = keyOf (position b) ∧
  ((inChunk chunkX chunkZ (position b) ∧
    0 ≤ py (position b) ≤
      clampHeight (noiseHeight (px (position b)) (pz (position b))))
   ∨ (24 ≤ py (position b) ≤ 70 ∧
      chunkX * 8 - 2 ≤ px (position b) ≤ chunkX * 8 + 9 ∧
      chunkZ * 8 - 2 ≤ pz (position b) ≤ chunkZ * 8 + 9 ∧
      (type b = wood ∨ type b = grass))).
Proof.
  intros Hr Hb. destruct (generateChunk_layout_ok rng Hr) as [Hlayout _].
  apply (Hlayout k b Hb).
Qed.

End GenerationLayout.

Lemma unitDraws_treeDraws : unitDraws treeDraws.
Proof.
  apply unitDraws_drawsThen; [|apply half_unit].
  repeat constructor; by compute.
Qed.

Lemma generateChunk_water_only_sea_fill_witness :
  let w := {| wposition := {| px := -1; py := 18; pz := 0 |}; level := 1 |} in
  positionKey (-1) 18 0 = keyOf (wposition w) ∧
  inChunk (-1) 0 (wposition w) ∧
  clampHeight (sampleHeight (px (wposition w)) (pz (wposition w))) < py (wposition w) ∧
  py (wposition w) ≤ SEA_LEVEL ∧
  level w = 1%Q.
Proof.
  apply (generateChunk_water_only_sea_fill sampleHeight (-1) 0 (drawsThen [] (1 # 2))).
  vm_compute. reflexivity.
Defined.

Lemma generateChunk_block_layout_witness :
  positionKey (-1) 32 (-2) = keyOf (position strayLeaf) ∧
  ((inChunk 0 0 (position strayLeaf) ∧
    0 ≤ py (position strayLeaf) ≤
      clampHeight (sampleHeight (px (position strayLeaf)) (pz (position strayLeaf))))
   ∨ (24 ≤ py (position strayLeaf) ≤ 70 ∧
      0 * 8 - 2 ≤ px (position strayLeaf) ≤ 0 * 8 + 9 ∧
      0 * 8 - 2 ≤ pz (position strayLeaf) ≤ 0 * 8 + 9 ∧
      (type strayLeaf = wood ∨ type strayLeaf = grass))).
Proof.
  apply (generateChunk_block_layout sampleHeight 0 0 treeDraws).
  - apply unitDraws_treeDraws.
  - vm_compute. reflexivity.
Defined.

(** ** The cache operations *)

Lemma elem_of_getAllLoadedBlocks_inv (chunks : gmap string Chunk) (b : Block) :
  b ∈ getAllLoadedBlocks chunks →
  ∃ key c k, chunks !! key = Some c ∧ generated c = true ∧ blocks c !! k = Some b.
Proof.
  unfold getAllLoadedBlocks. intros ([key c] & Hb & Hc)%list_elem_of_bind.
  apply elem_of_map_to_list in Hc. cbn in Hb.
  destruct (generated c) eqn:Hg; [|by apply elem_of_nil in Hb].
  apply list_elem_of_fmap in Hb as ([k b'] & -> & Hkb).
  apply elem_of_map_to_list in Hkb. by exists key, c, k.
Qed.

Lemma elem_of_getAllLoadedWaterBlocks_inv (chunks : gmap string Chunk)
    (w : WaterBlock) :
  w ∈ getAllLoadedWaterBlocks chunks →
  ∃ key c k, chunks !! key = Some c ∧ generated c = true ∧
             waterBlocks c !! k = Some w.
Proof.
  unfold getAllLoadedWaterBlocks. intros ([key c] & Hw & Hc)%list_elem_of_bind.
  apply elem_of_map_to_list in Hc. cbn in Hw.
  destruct (generated c) eqn:Hg; [|by apply elem_of_nil in Hw].
  apply list_elem_of_fmap in Hw as ([k w'] & -> & Hkw).
  apply elem_of_map_to_list in Hkw. by exists key, c, k.
Qed.

Section CacheOperations.

Variable noiseHeight : Z → Z → Z.

Lemma getOrGenerateChunk_lookup (chunkX chunkZ : Z)
    (st : gmap string Chunk * RandomSource) :
  let r := getOrGenerateChunk noiseHeight chunkX chunkZ st in
  r.2.1 !! getChunkKey chunkX chunkZ = Some r.1 ∧
  (∀ key c, st.1 !! key = Some c → r.2.1 !! key = Some c) ∧
  (∀ key, key ≠ getChunkKey chunkX chunkZ → r.2.1 !! key = st.1 !! key).
Proof.
  destruct st as [chunks rng]. unfold getOrGenerateChunk. cbn [fst].
  destruct (chunks !! getChunkKey chunkX chunkZ) as [c|] eqn:Hc; [done|].
  destruct (generateChunk noiseHeight chunkX chunkZ rng) as [c rng'].
  cbn. split; [apply lookup_insert_eq|]. split.
  - intros key c' Hkey. rewrite lookup_insert_ne; [done|]. congruence.
  - intros key Hne. by rewrite lookup_insert_ne.
Qed.

(** X9. A chunk is generated at most once: asking again for a chunk that
    was just obtained returns the same chunk and leaves the cache and the
    random source as they are. *)
Theorem getOrGenerateChunk_twice (chunkX chunkZ : Z)
    (st : gmap string Chunk * RandomSource) :
  let r := getOrGenerateChunk noiseHeight chunkX chunkZ st in
  getOrGenerateChunk noiseHeight chunkX chunkZ r.2 = r.
Proof.
  cbv zeta.
  destruct (getOrGenerateChunk_lookup chunkX chunkZ st) as (Hc & _ & _).
  destruct (getOrGenerateChunk noiseHeight chunkX chunkZ st) as [c [chunks rng]].
  cbn in *. unfold getOrGenerateChunk. by rewrite Hc.
Qed.

Lemma placeBlock_valid (p : Position) (t : BlockType)
    (st : gmap string Chunk * RandomSource) :
  0 ≤ py p ≤ MAX_HEIGHT + 20 → t ≠ water →
  let chunkCoord := getChunkCoord (px p) (pz p) in
  let r := getOrGenerateChunk noiseHeight (coord_x chunkCoord) (coord_z chunkCoord) st in
  placeBlock noiseHeight p t st
  = (<[homeKey p :=
         {| chunk_x := chunk_x r.1; chunk_z := chunk_z r.1;
            blocks := <[keyOf p := {| position := p; type := t |}]> (blocks r.1);
            waterBlocks := delete (keyOf p) (waterBlocks r.1);
            generated := generated r.1 |}]> r.2.1, r.2.2).
Proof.
  intros Hy Ht chunkCoord r. unfold placeBlock.
  destruct (Z.ltb_spec (py p) 0); [lia|].
  destruct (Z.gtb_spec (py p) (MAX_HEIGHT + 20)); [lia|]. cbn [orb].
  assert (isWater t = false) as -> by (by destruct t).
  fold chunkCoord. fold r. by destruct r as [c [chunks rng]].
Qed.

Lemma placeBlock_changes (p : Position) (t : BlockType)
    (st : gmap string Chunk * RandomSource) :
  0 ≤ py p ≤ MAX_HEIGHT + 20 → t ≠ water →
  let chunkCoord := getChunkCoord (px p) (pz p) in
  let before :=
    (getOrGenerateChunk noiseHeight (coord_x chunkCoord) (coord_z chunkCoord) st).1 in
  ∃ c, (placeBlock noiseHeight p t st).1 !! homeKey p = Some c ∧
       blocks c !! keyOf p = Some {| position := p; type := t |} ∧
       waterBlocks c !! keyOf p = None ∧
       (∀ k, k ≠ keyOf p →
          blocks c !! k = blocks before !! k ∧
          waterBlocks c !! k = waterBlocks before !! k) ∧
       (∀ key, key ≠ homeKey p →
          (placeBlock noiseHeight p t st).1 !! key = st.1 !! key).
Proof.
  intros Hy Ht chunkCoord before.
  rewrite (placeBlock_valid p t st Hy Ht). cbn [fst].
  destruct (getOrGenerateChunk_lookup (coord_x chunkCoord) (coord_z chunkCoord) st)
    as (_ & _ & Hother).
  eexists. split; [apply lookup_insert_eq|]. cbn. repeat split.
  - apply lookup_insert_eq.
  - apply lookup_delete_eq.
  - by rewrite lookup_insert_ne.
  - by rewrite lookup_delete_ne.
  - intros key Hne. rewrite lookup_insert_ne by done. by apply Hother.
Qed.

(** X10. A valid placement changes one position of one chunk: afterwards
    the chunk of the position holds the block there and no water there;
    every other block and water entry of that chunk, and every other cached
    chunk, is as it was (or as generated, when the chunk was not cached). *)
Theorem placeBlock_frame (p : Position) (t : BlockType)
    (st : gmap string Chunk * RandomSource) :
  0 ≤ py p ≤ MAX_HEIGHT + 20 → t ≠ water →
  let chunkCoord := getChunkCoord (px p) (pz p) in
  let before :=
    (getOrGenerateChunk noiseHeight (coord_x chunkCoord) (coord_z chunkCoord) st).1 in
  ∃ c, (placeBlock noiseHeight p t st).1 !! homeKey p = Some c ∧
       blocks c !! keyOf p = Some {| position := p; type := t |} ∧
       waterBlocks c !! keyOf p = None ∧
       (∀ k, k ≠ keyOf p →
          blocks c !! k = blocks before !! k ∧
          waterBlocks c !! k = waterBlocks before !! k) ∧
       (∀ key, key ≠ homeKey p →
          (placeBlock noiseHeight p t st).1 !! key = st.1 !! key).
Proof. apply placeBlock_changes. Qed.

(** X11. Placing and then removing a block above sea level, at a position
    of a cached chunk that held neither a block nor water, restores the
    cache exactly and draws no random number. *)
Theorem place_then_remove (p : Position) (t : BlockType)
    (chunks : gmap string Chunk) (rng : RandomSource) (c : Chunk) :
  SEA_LEVEL < py p ≤ MAX_HEIGHT + 20 → t ≠ water →
  chunks !! homeKey p = Some c →
  blocks c !! keyOf p = None → waterBlocks c !! keyOf p = None →
  let placed := placeBlock noiseHeight p t (chunks, rng) in
  (removeBlock p placed.1, placed.2) = (chunks, rng).
Proof.
  intros Hy Ht Hc Hb Hw placed. subst placed.
  rewrite (placeBlock_valid p t (chunks, rng)); [|unfold SEA_LEVEL in *; lia|done].
  unfold getOrGenerateChunk. change (getChunkKey _ _) with (homeKey p).
  rewrite Hc. cbn [fst snd]. f_equal.
  unfold removeBlock. change (getChunkKey _ _) with (homeKey p).
  rewrite lookup_insert_eq. cbn [blocks waterBlocks chunk_x chunk_z generated].
  destruct (Z.leb_spec (py p) SEA_LEVEL); [lia|].
  rewrite insert_insert_eq, delete_insert_id, delete_id by done.
  destruct c. by apply insert_id.
Qed.

(** X12. The last placement wins: placing twice at one position is the
    same as placing the second block only. *)
Theorem placeBlock_overwrites (p : Position) (t1 t2 : BlockType)
    (st : gmap string Chunk * RandomSource) :
  0 ≤ py p ≤ MAX_HEIGHT + 20 → t1 ≠ water → t2 ≠ water →
  placeBlock noiseHeight p t2 (placeBlock noiseHeight p t1 st)
  = placeBlock noiseHeight p t2 st.
Proof.
  intros Hy Ht1 Ht2.
  rewrite (placeBlock_valid p t2 (placeBlock noiseHeight p t1 st)) by done.
  rewrite (placeBlock_valid p t1 st) by done.
  rewrite (placeBlock_valid p t2 st) by done.
  set (r := getOrGenerateChunk noiseHeight _ _ st).
  unfold getOrGenerateChunk at 1 2 3 4 5 6 7. cbn [fst snd].
  change (getChunkKey _ _) with (homeKey p).
  rewrite lookup_insert_eq. cbn [fst snd blocks waterBlocks chunk_x chunk_z generated].
  rewrite insert_insert_eq. f_equal. f_equal. f_equal.
  - apply insert_insert_eq.
  - apply map_eq. intros k. rewrite !lookup_delete. by case_decide.
Qed.

(** X13. Removing twice is the same as removing once. *)
Theorem removeBlock_idempotent (p : Position) (chunks : gmap string Chunk) :
  removeBlock p (removeBlock p chunks) = removeBlock p chunks.
Proof.
  unfold removeBlock. change (getChunkKey _ _) with (homeKey p).
  destruct (chunks !! homeKey p) as [c|] eqn:Hc; [|by rewrite Hc].
  rewrite lookup_insert_eq, insert_insert_eq.
  cbn [blocks waterBlocks chunk_x chunk_z generated]. f_equal. f_equal.
  - apply map_eq. intros k. rewrite !lookup_delete. by case_decide.
  - destruct (py p <=? SEA_LEVEL); [|done]. apply insert_insert_eq.
Qed.

(** X14. A removal never loads or evicts a chunk and touches nothing but
    its own position: the cached keys are the same, and every block and
    water entry under another key, or in another chunk, is unchanged. *)
Theorem removeBlock_frame (p : Position) (chunks : gmap string Chunk) :
  dom (removeBlock p chunks) = dom chunks ∧
  (∀ key, key ≠ homeKey p → removeBlock p chunks !! key = chunks !! key) ∧
  (∀ c c', chunks !! homeKey p = Some c →
           removeBlock p chunks !! homeKey p = Some c' →
           ∀ k, k ≠ keyOf p →
             blocks c' !! k = blocks c !! k ∧
             waterBlocks c' !! k = waterBlocks c !! k).
Proof.
  unfold removeBlock. change (getChunkKey _ _) with (homeKey p).
  destruct (chunks !! homeKey p) as [c|] eqn:Hc.
  - split; [|split].
    + rewrite dom_insert_L. apply elem_of_dom_2 in Hc.
      apply subseteq_union_1_L. by apply singleton_subseteq_l.
    + intros key Hne. by rewrite lookup_insert_ne.
    + intros c0 c' [= <-]. rewrite lookup_insert_eq. intros [= <-] k Hk. cbn.
      split; [by rewrite lookup_delete_ne|].
      destruct (py p <=? SEA_LEVEL); [|done]. by rewrite lookup_insert_ne.
  - split; [done|]. split; [done|]. intros c c' Hc'. congruence.
Qed.

End CacheOperations.

Lemma place_then_remove_witness :
  let p := {| px := 3; py := 25; pz := 3 |} in
  let chunks : gmap string Chunk := {[ "0,0"%string := emptyChunk 0 0 true ]} in
  let rng := drawsThen [] (1 # 2) in
  let placed := placeBlock sampleHeight p stone (chunks, rng) in
  (removeBlock p placed.1, placed.2) = (chunks, rng).
Proof.
  apply (place_then_remove sampleHeight {| px := 3; py := 25; pz := 3 |} stone
           {[ "0,0"%string := emptyChunk 0 0 true ]} (drawsThen [] (1 # 2))
           (emptyChunk 0 0 true)).
  - unfold SEA_LEVEL, MAX_HEIGHT. cbn. lia.
  - discriminate.
  - reflexivity.
  - reflexivity.
  - reflexivity.
Defined.

Lemma placeBlock_frame_witness :
  let p := {| px := 3; py := 25; pz := 3 |} in
  let st : gmap string Chunk * RandomSource := (∅, drawsThen [] (1 # 2)) in
  let before := (getOrGenerateChunk sampleHeight 0 0 st).1 in
  ∃ c, (placeBlock sampleHeight p stone st).1 !! homeKey p = Some c ∧
       blocks c !! keyOf p = Some {| position := p; type := stone |} ∧
       waterBlocks c !! keyOf p = None ∧
       (∀ k, k ≠ keyOf p →
          blocks c !! k = blocks before !! k ∧
          waterBlocks c !! k = waterBlocks before !! k) ∧
       (∀ key, key ≠ homeKey p →
          (placeBlock sampleHeight p stone st).1 !! key = st.1 !! key).
Proof.
  apply (placeBlock_frame sampleHeight {| px := 3; py := 25; pz := 3 |} stone
           (∅, drawsThen [] (1 # 2))).
  - unfold MAX_HEIGHT. cbn. lia.
  - discriminate.
Defined.

Lemma placeBlock_overwrites_witness :
  let p := {| px := 3; py := 25; pz := 3 |} in
  let st : gmap string Chunk * RandomSource := (∅, drawsThen [] (1 # 2)) in
  placeBlock sampleHeight p wood (placeBlock sampleHeight p stone st)
  = placeBlock sampleHeight p wood st.
Proof.
  apply (placeBlock_overwrites sampleHeight {| px := 3; py := 25; pz := 3 |}
           stone wood (∅, drawsThen [] (1 # 2))).
  - unfold MAX_HEIGHT. cbn. lia.
  - discriminate.
  - discriminate.
Defined.

(** ** What the renderer and the collision index receive *)

Section FlattenedLists.

Variable noiseHeight : Z → Z → Z.

(** X15. A placed block is listed: after a valid placement on any state
    a session reaches, the flattened block list contains the block. *)
Theorem placed_block_is_listed (ops : list Operation) (rng : RandomSource)
    (p : Position) (t : BlockType) :
  0 ≤ py p ≤ MAX_HEIGHT + 20 → t ≠ water →
  {| position := p; type := t |}
    ∈ getAllLoadedBlocks (placeBlock noiseHeight p t (run noiseHeight ops rng)).1.
Proof.
  intros Hy Ht.
  pose proof (step_generated noiseHeight (run noiseHeight ops rng) (OpPlace p t)
                (run_generated noiseHeight ops rng)) as Hgen.
  cbn [step] in Hgen.
  destruct (placeBlock_changes noiseHeight p t (run noiseHeight ops rng) Hy Ht)
    as (c & Hc & Hb & _).
  eapply elem_of_getAllLoadedBlocks; [exact Hc| |exact Hb].
  by apply (Hgen _ _ Hc).
Qed.

(** X16. A removal at or below sea level clears the position: in a world
    built by generation, placement and removal, after [removeBlock] at a
    position with [y <= 20] no listed block has that position, whether its
    chunk is cached or not. *)
Theorem removed_block_not_listed (ops : list Operation) (rng : RandomSource)
    (p : Position) (b : Block) :
  unitDraws rng →
  Forall (λ op, isBuildOp op = true) ops →
  py p ≤ SEA_LEVEL →
  b ∈ getAllLoadedBlocks (removeBlock p (run noiseHeight ops rng).1) →
  position b ≠ p.
Proof.
  intros Hr Hops Hy Hb Hpos.
  destruct (run_ok noiseHeight ops rng Hops Hr) as [Hs _].
  pose proof (removeBlock_ok p _ Hs) as Hs'.
  apply elem_of_getAllLoadedBlocks_inv in Hb as (key & c & k & Hc & _ & Hk).
  destruct (Hs' _ _ Hc) as (Hblocks & _ & _).
  destruct (Hblocks _ _ Hk) as [-> Hhome]. rewrite Hpos in Hhome, Hk.
  destruct Hhome as [->|Hhigh]; [|lia].
  revert Hc. unfold removeBlock. change (getChunkKey _ _) with (homeKey p).
  destruct ((run noiseHeight ops rng).1 !! homeKey p) as [c0|] eqn:Hc0.
  - rewrite lookup_insert_eq. intros [= <-]. cbn in Hk.
    by rewrite lookup_delete_eq in Hk.
  - by rewrite Hc0.
Qed.

(** X17. The flattened lists are disjoint by position: in a world built
    by generation, placement and removal, no position occurs both in the
    block list and in the water list. *)
Theorem flattened_lists_disjoint (ops : list Operation) (rng : RandomSource)
    (b : Block) (w : WaterBlock) :
  unitDraws rng →
  Forall (λ op, isBuildOp op = true) ops →
  b ∈ getAllLoadedBlocks (run noiseHeight ops rng).1 →
  w ∈ getAllLoadedWaterBlocks (run noiseHeight ops rng).1 →
  position b ≠ wposition w.
Proof.
  intros Hr Hops Hb Hw Hpos.
  destruct (run_ok noiseHeight ops rng Hops Hr) as [Hs _].
  apply elem_of_getAllLoadedBlocks_inv in Hb as (key1 & c1 & k1 & Hc1 & _ & Hk1).
  apply elem_of_getAllLoadedWaterBlocks_inv in Hw as (key2 & c2 & k2 & Hc2 & _ & Hk2).
  destruct (Hs _ _ Hc1) as (Hblocks & _ & _).
  destruct (Hs _ _ Hc2) as (_ & Hwater & _).
  destruct (Hblocks _ _ Hk1) as [-> _]. destruct (Hwater _ _ Hk2) as (-> & _ & _).
  rewrite Hpos in Hk1.
  destruct (StoreOk_Exclusive _ Hs key1 key2 c1 c2 (keyOf (wposition w)) Hc1 Hc2);
    congruence.
Qed.

End FlattenedLists.

Lemma unitDraws_half : unitDraws (drawsThen [] (1 # 2)).
Proof. apply unitDraws_drawsThen; [constructor|apply half_unit]. Qed.

Lemma placed_block_is_listed_witness :
  {| position := {| px := 3; py := 25; pz := 3 |}; type := stone |}
    ∈ getAllLoadedBlocks
        (placeBlock sampleHeight {| px := 3; py := 25; pz := 3 |} stone
           (run sampleHeight sampleSession (drawsThen [] (1 # 2)))).1.
Proof.
  apply (placed_block_is_listed sampleHeight sampleSession (drawsThen [] (1 # 2))).
  - unfold MAX_HEIGHT. cbn. lia.
  - discriminate.
Defined.

Lemma listed_by_lookup (chunks : gmap string Chunk) (key k : string) (b : Block) :
  chunks !! key ≫= (λ c, if generated c then blocks c !! k else None) = Some b →
  b ∈ getAllLoadedBlocks chunks.
Proof.
  intros Hfound. destruct (chunks !! key) as [c|] eqn:Hc; [|done].
  cbn in Hfound. destruct (generated c) eqn:Hg; [|done].
  by eapply elem_of_getAllLoadedBlocks.
Qed.

Lemma water_listed_by_lookup (chunks : gmap string Chunk) (key k : string)
    (w : WaterBlock) :
  chunks !! key ≫= (λ c, if generated c then waterBlocks c !! k else None) = Some w →
  w ∈ getAllLoadedWaterBlocks chunks.
Proof.
  intros Hfound. destruct (chunks !! key) as [c|] eqn:Hc; [|done].
  cbn in Hfound. destruct (generated c) eqn:Hg; [|done].
  unfold getAllLoadedWaterBlocks.
  apply list_elem_of_bind. exists (key, c). split.
  - cbn. rewrite Hg. apply list_elem_of_fmap. exists (k, w).
    split; [done|]. by apply elem_of_map_to_list.
  - by apply elem_of_map_to_list.
Qed.

Lemma removed_block_not_listed_witness :
  position {| position := {| px := 0; py := 9; pz := 0 |}; type := stone |}
  ≠ {| px := 0; py := 10; pz := 0 |}.
Proof.
  apply (removed_block_not_listed sampleHeight sampleSession (drawsThen [] (1 # 2))
           {| px := 0; py := 10; pz := 0 |}
           {| position := {| px := 0; py := 9; pz := 0 |}; type := stone |}).
  - apply unitDraws_half.
  - repeat constructor.
  - unfold SEA_LEVEL. cbn. lia.
  - apply (listed_by_lookup _ "0,0"%string (positionKey 0 9 0)).
    vm_compute. reflexivity.
Defined.

Lemma flattened_lists_disjoint_witness :
  position {| position := {| px := 0; py := 9; pz := 0 |}; type := stone |}
  ≠ wposition {| wposition := {| px := 0; py := 10; pz := 0 |}; level := 1 |}.
Proof.
  apply (flattened_lists_disjoint sampleHeight digSession (drawsThen [] (1 # 2))).
  - apply unitDraws_half.
  - repeat constructor.
  - apply (listed_by_lookup _ "0,0"%string (positionKey 0 9 0)).
    vm_compute. reflexivity.
  - apply (water_listed_by_lookup _ "0,0"%string (positionKey 0 10 0)).
    vm_compute. reflexivity.
Defined.

(** ** Streaming *)

Section Streaming.

Variable noiseHeight : Z → Z → Z.

Lemma updateLoadedChunks_refreshLoop (playerX playerZ : Q)
    (st : gmap string Chunk * RandomSource) :
  let c := getChunkCoordQ playerX playerZ in
  let loop :=
    refreshLoop noiseHeight (coord_x c - RENDER_DISTANCE) (coord_x c + RENDER_DISTANCE)
      (coord_z c - RENDER_DISTANCE) (coord_z c + RENDER_DISTANCE) (∅, st) in
  updateLoadedChunks noiseHeight playerX playerZ st
  = (filter (λ kv, kv.1 ∈ loop.1) loop.2.1, loop.2.2).
Proof.
  intros c loop. unfold updateLoadedChunks. fold c.
  change (forRange _ _ _ _) with loop. by destruct loop as [loaded [chunks rng]].
Qed.

Lemma refreshLoop_inv (xlo xhi zlo zhi : Z) (st : gmap string Chunk * RandomSource) :
  RefreshInv xlo xhi zlo zhi st.1 (refreshLoop noiseHeight xlo xhi zlo zhi (∅, st)).
Proof.
  unfold refreshLoop. apply (forRange_invariant (RefreshInv xlo xhi zlo zhi st.1)).
  - split; [|split]; cbn; [intros k Hk; by apply not_elem_of_empty in Hk..|done].
  - intros x acc Hx Hacc.
    apply (forRange_invariant (RefreshInv xlo xhi zlo zhi st.1)); [done|].
    intros z [loaded st'] Hz (Hcached & Hsquare & Hkept).
    destruct (getOrGenerateChunk_lookup noiseHeight x z st') as (Hnew & Hold & _).
    cbn in *. split; [|split]; cbn.
    + intros k [->%elem_of_singleton|Hk]%elem_of_union; [by eexists|].
      destruct (Hcached k Hk) as [c Hc]. exists c. by apply Hold.
    + intros k [->%elem_of_singleton|Hk]%elem_of_union; [by exists x, z|].
      by apply Hsquare.
    + intros k c Hk. by apply Hold, Hkept.
Qed.

Lemma refreshLoop_visits (xlo xhi zlo zhi x z : Z)
    (st : gmap string Chunk * RandomSource) :
  xlo ≤ x ≤ xhi → zlo ≤ z ≤ zhi →
  getChunkKey x z ∈ (refreshLoop noiseHeight xlo xhi zlo zhi (∅, st)).1.
Proof.
  intros Hx Hz. unfold refreshLoop.
  apply (forRange_establish (λ _, True)
           (λ acc : gset string * (gmap string Chunk * RandomSource),
              getChunkKey x z ∈ acc.1) _ _ x); [done..| |].
  - intros acc _.
    apply (forRange_establish (λ _, True)
             (λ acc : gset string * (gmap string Chunk * RandomSource),
                getChunkKey x z ∈ acc.1) _ _ z); [done..| |].
    + intros [loaded st'] _. cbn. apply elem_of_union_l. by apply elem_of_singleton.
    + intros j [loaded st'] _ _ Hin. cbn in *. by apply elem_of_union_r.
  - intros i acc _ _ Hin.
    apply (forRange_invariant
             (λ acc : gset string * (gmap string Chunk * RandomSource),
                getChunkKey x z ∈ acc.1)); [done|].
    intros j [loaded st'] _ Hin'. cbn in *. by apply elem_of_union_r.
Qed.

Lemma updateLoadedChunks_cached (playerX playerZ : Q)
    (st : gmap string Chunk * RandomSource) (key : string) :
  is_Some ((updateLoadedChunks noiseHeight playerX playerZ st).1 !! key)
  ↔ ∃ chunkX chunkZ,
      inRenderSquare (getChunkCoordQ playerX playerZ) chunkX chunkZ ∧
      key = getChunkKey chunkX chunkZ.
Proof.
  rewrite updateLoadedChunks_refreshLoop. cbn [fst].
  set (c := getChunkCoordQ playerX playerZ).
  pose proof (refreshLoop_inv (coord_x c - RENDER_DISTANCE) (coord_x c + RENDER_DISTANCE)
                (coord_z c - RENDER_DISTANCE) (coord_z c + RENDER_DISTANCE) st)
    as (Hcached & Hsquare & _).
  split.
  - intros [ch [_ Hin]%map_lookup_filter_Some]. cbn in Hin.
    destruct (Hsquare key Hin) as (x & z & Hx & Hz & ->). by exists x, z.
  - intros (x & z & [Hx Hz] & ->).
    pose proof (refreshLoop_visits _ _ _ _ x z st Hx Hz) as Hin.
    destruct (Hcached _ Hin) as [ch Hch]. exists ch.
    by apply map_lookup_filter_Some.
Qed.

Lemma updateLoadedChunks_keeps (playerX playerZ : Q)
    (st : gmap string Chunk * RandomSource) (chunkX chunkZ : Z) (c : Chunk) :
  inRenderSquare (getChunkCoordQ playerX playerZ) chunkX chunkZ →
  st.1 !! getChunkKey chunkX chunkZ = Some c →
  (updateLoadedChunks noiseHeight playerX playerZ st).1 !! getChunkKey chunkX chunkZ
  = Some c.
Proof.
  intros [Hx Hz] Hc. rewrite updateLoadedChunks_refreshLoop. cbn [fst].
  set (pc := getChunkCoordQ playerX playerZ) in *.
  pose proof (refreshLoop_inv (coord_x pc - RENDER_DISTANCE) (coord_x pc + RENDER_DISTANCE)
                (coord_z pc - RENDER_DISTANCE) (coord_z pc + RENDER_DISTANCE) st)
    as (_ & _ & Hkept).
  apply map_lookup_filter_Some. split; [by apply Hkept|].
  by apply refreshLoop_visits.
Qed.

(** X18. Streaming bound: after [updateLoadedChunks] a key is cached
    exactly when it is the key of a chunk in the square of radius 3 around
    the player's chunk: all of those are loaded and everything else is
    evicted, whatever was cached before. *)
Theorem updateLoadedChunks_streaming (playerX playerZ : Q)
    (st : gmap string Chunk * RandomSource) (key : string) :
  is_Some ((updateLoadedChunks noiseHeight playerX playerZ st).1 !! key)
  ↔ ∃ chunkX chunkZ,
      (coord_x (getChunkCoordQ playerX playerZ) - 3 ≤ chunkX
         ≤ coord_x (getChunkCoordQ playerX playerZ) + 3) ∧
      (coord_z (getChunkCoordQ playerX playerZ) - 3 ≤ chunkZ
         ≤ coord_z (getChunkCoordQ playerX playerZ) + 3) ∧
      key = getChunkKey chunkX chunkZ.
Proof.
  rewrite updateLoadedChunks_cached. unfold inRenderSquare, RENDER_DISTANCE.
  split; intros (x & z & H); exists x, z; tauto.
Qed.

(** X19. A refresh never regenerates: a chunk that is cached and lies in
    the square around the player is the same chunk after
    [updateLoadedChunks], with the edits made to it. *)
Theorem updateLoadedChunks_keeps_cached (playerX playerZ : Q)
    (st : gmap string Chunk * RandomSource) (chunkX chunkZ : Z) (c : Chunk) :
  coord_x (getChunkCoordQ playerX playerZ) - 3 ≤ chunkX
    ≤ coord_x (getChunkCoordQ playerX playerZ) + 3 →
  coord_z (getChunkCoordQ playerX playerZ) - 3 ≤ chunkZ
    ≤ coord_z (getChunkCoordQ playerX playerZ) + 3 →
  st.1 !! getChunkKey chunkX chunkZ = Some c →
  (updateLoadedChunks noiseHeight playerX playerZ st).1 !! getChunkKey chunkX chunkZ
  = Some c.
Proof. intros Hx Hz. by apply updateLoadedChunks_keeps. Qed.

(** X20. Refreshing twice at the same position is the same as refreshing
    once: the second pass generates nothing, draws no random number and
    evicts nothing. *)
Theorem updateLoadedChunks_idempotent (playerX playerZ : Q)
    (st : gmap string Chunk * RandomSource) :
  updateLoadedChunks noiseHeight playerX playerZ
    (updateLoadedChunks noiseHeight playerX playerZ st)
  = updateLoadedChunks noiseHeight playerX playerZ st.
Proof.
  set (st1 := updateLoadedChunks noiseHeight playerX playerZ st).
  rewrite (updateLoadedChunks_refreshLoop playerX playerZ st1). cbv zeta.
  set (pc := getChunkCoordQ playerX playerZ).
  set (xlo := coord_x pc - RENDER_DISTANCE). set (xhi := coord_x pc + RENDER_DISTANCE).
  set (zlo := coord_z pc - RENDER_DISTANCE). set (zhi := coord_z pc + RENDER_DISTANCE).
  assert ((refreshLoop noiseHeight xlo xhi zlo zhi (∅, st1)).2 = st1) as Hsame.
  { unfold refreshLoop.
    apply (forRange_invariant
             (λ acc : gset string * (gmap string Chunk * RandomSource), acc.2 = st1));
      [done|].
    intros x acc Hx Hacc.
    apply (forRange_invariant
             (λ acc : gset string * (gmap string Chunk * RandomSource), acc.2 = st1));
      [done|].
    intros z [loaded st'] Hz Hst'. cbn in *. subst st'.
    assert (is_Some (st1.1 !! getChunkKey x z)) as [c Hc].
    { apply updateLoadedChunks_cached. by exists x, z. }
    unfold getOrGenerateChunk. destruct st1 as [chunks rng]. cbn in Hc.
    by rewrite Hc. }
  rewrite Hsame. destruct st1 as [chunks rng] eqn:Hst1. cbn [fst snd]. f_equal.
  apply map_filter_id. intros key c Hc. cbn.
  assert (is_Some (st1.1 !! key)) as Hsome by (rewrite Hst1; by eexists).
  apply updateLoadedChunks_cached in Hsome as (x & z & [Hx Hz] & ->).
  by apply refreshLoop_visits.
Qed.

End Streaming.

Lemma updateLoadedChunks_keeps_cached_witness :
  let st := (getOrGenerateChunk sampleHeight 0 0 (∅, treeDraws)).2 in
  let c := (getOrGenerateChunk sampleHeight 0 0 (∅, treeDraws)).1 in
  (updateLoadedChunks sampleHeight 20 (-12) st).1 !! getChunkKey 0 0 = Some c.
Proof.
  intros st c.
  apply (updateLoadedChunks_keeps_cached sampleHeight 20 (-12) st 0 0 c).
  - change (coord_x (getChunkCoordQ 20 (-12))) with 2. lia.
  - change (coord_z (getChunkCoordQ 20 (-12))) with (-2). lia.
  - exact (proj1 (getOrGenerateChunk_lookup sampleHeight 0 0 (∅, treeDraws))).
Defined.

(** ** Restoring payloads *)

Lemma loadItems_readable {A} (items : list (Item A)) (m : gmap string A) :
  forallb isPair items = true ↔ ∃ m', loadItems items m = inl m'.
Proof.
  revert m. induction items as [|[key value|v] rest IH]; intros m; cbn.
  - split; [eauto|done].
  - apply IH.
  - split; [done|by intros [? ?]].
Qed.

Lemma loadEntries_readable {A} (field : EntriesField A) :
  entriesReadable field = true ↔ ∃ m, loadEntries field = inl m.
Proof.
  destruct field as [entries|v|items]; cbn.
  - split; [eauto|done].
  - destruct (truthy v); cbn; split; try done; [by intros [? ?]|eauto].
  - apply loadItems_readable.
Qed.

Lemma loadChunk_readable (chunkData : ChunkData) :
  recordReadable chunkData = true ↔ ∃ c, loadChunk chunkData = inl c.
Proof.
  unfold recordReadable, loadChunk. rewrite andb_true_iff, !loadEntries_readable.
  split.
  - intros [[bs ->] [ws ->]]. eauto.
  - destruct (loadEntries (data_blocks chunkData)) as [bs|e]; [|by intros [? ?]].
    destruct (loadEntries (data_waterBlocks chunkData)) as [ws|e]; [|by intros [? ?]].
    eauto.
Qed.

Lemma loadRecords_objectRecords (entries : list (string * ChunkData))
    (chunks : gmap string Chunk) :
  loadRecords (objectRecords entries) chunks = loadChunks entries chunks.
Proof.
  revert chunks. induction entries as [|[key chunkData] rest IH]; intros chunks;
    cbn; [done|].
  destruct (loadChunk chunkData) as [c|e]; [apply IH|done].
Qed.

Lemma loadRecords_completion (records : list (string * option ChunkData))
    (chunks : gmap string Chunk) :
  ((loadRecords records chunks).2 = Normal
   ↔ Forall (λ kr, recordLoads kr.2 = true) records) ∧
  ((∃ e, (loadRecords records chunks).2 = Throw e)
   ↔ Exists (λ kr, recordLoads kr.2 = false) records).
Proof.
  revert chunks.
  induction records as [|[key [chunkData|]] rest IH]; intros chunks; cbn.
  - split; [split; [constructor|done]|].
    split; [by intros [? ?]|by intros ?%Exists_nil].
  - rewrite Forall_cons, Exists_cons. cbn.
    destruct (loadChunk chunkData) as [c|e] eqn:Hc.
    + assert (recordReadable chunkData = true) as ->
        by (apply loadChunk_readable; eauto).
      destruct (IH (<[key := c]> chunks)) as [-> ->].
      split; [tauto|]. split; [by right|]. by intros [?|?].
    + assert (recordReadable chunkData = false) as ->.
      { apply not_true_is_false. intros [c Hc']%loadChunk_readable. congruence. }
      cbn. split; [split; [done|by intros [? _]]|].
      split; [by left|eauto].
  - rewrite Forall_cons, Exists_cons. cbn.
    split; [split; [done|by intros [? _]]|].
    split; [by left|eauto].
Qed.

Lemma loadRecords_dom (records : list (string * option ChunkData))
    (chunks : gmap string Chunk) :
  Forall (λ kr, recordLoads kr.2 = true) records →
  dom (loadRecords records chunks).1 = list_to_set records.*1 ∪ dom chunks.
Proof.
  intros Hall. revert chunks.
  induction Hall as [|[key [chunkData|]] rest Hkr _ IH]; intros chunks; cbn.
  - by rewrite union_empty_l_L.
  - cbn in Hkr. apply loadChunk_readable in Hkr as [c ->].
    rewrite IH, dom_insert_L. by rewrite (assoc_L (∪)), (comm_L (∪) _ {[key]}).
  - done.
Qed.

(** X21. The restore raises an exception exactly when some chunk record
    of the payload is [null] or [undefined], has a truthy [blocks] or
    [waterBlocks] field that is not a list, or has in such a list an
    element that is not iterable.  Otherwise it returns normally and has
    replaced the cache: the cached keys are then the keys of the payload,
    whatever was cached before.  A payload whose records are all objects
    is restored as the same payload in the general form. *)
Theorem loadWorldData_throws (records : list (string * option ChunkData))
    (entries : list (string * ChunkData)) (chunks : gmap string Chunk) :
  ((∃ e, (loadWorldData (DataRecords records) chunks).2 = Throw e)
   ↔ Exists (λ kr, recordLoads kr.2 = false) records) ∧
  ((loadWorldData (DataRecords records) chunks).2 = Normal
   ↔ Forall (λ kr, recordLoads kr.2 = true) records) ∧
  (Forall (λ kr, recordLoads kr.2 = true) records →
   dom (loadWorldData (DataRecords records) chunks).1 = list_to_set records.*1) ∧
  loadWorldData (Data (Some entries)) chunks
  = loadWorldData (DataRecords (objectRecords entries)) chunks.
Proof.
  cbn [loadWorldData]. destruct (loadRecords_completion records ∅) as [Hn Ht].
  repeat split; try apply Hn; try apply Ht.
  - intros Hall. rewrite loadRecords_dom by done.
    by rewrite dom_empty_L, union_empty_r_L.
  - by rewrite loadRecords_objectRecords.
Qed.

(** The two malformed saves: a [null] record and a number among the block
    entries both stop the restore with an exception and leave the cache
    empty. *)
Example loadWorldData_malformed (chunks : gmap string Chunk) :
  (∃ e, loadWorldData nullRecordSave chunks = (∅, Throw e)) ∧
  (∃ e, loadWorldData numberEntrySave chunks = (∅, Throw e)).
Proof. split; eexists; reflexivity. Qed.







(** ** The collision index and the collision test *)

Lemma updateBlocks_lookup_acc (bs : list Block) (acc : gmap string Block)
    (k : string) (b : Block) :
  foldl (λ m b', <[keyOf (position b') := b']> m) acc bs !! k = Some b →
  (b ∈ bs ∧ keyOf (position b) = k) ∨ acc !! k = Some b.
Proof.
  revert acc. induction bs as [|b0 bs IH]; intros acc; cbn; [by right|].
  intros [[Hin Hk]|Hacc]%IH.
  - left. split; [by apply list_elem_of_further|done].
  - revert Hacc. rewrite lookup_insert. case_decide as Hk0; [|by right].
    intros [= <-]. left. split; [apply list_elem_of_here|done].
Qed.

Lemma updateBlocks_occupied_acc (bs : list Block) (acc : gmap string Block)
    (k : string) :
  (∃ b, b ∈ bs ∧ keyOf (position b) = k) ∨ is_Some (acc !! k) →
  is_Some (foldl (λ m b', <[keyOf (position b') := b']> m) acc bs !! k).
Proof.
  revert acc. induction bs as [|b0 bs IH]; intros acc; cbn.
  - intros [(b & Hb & _)|Hacc]; [by apply elem_of_nil in Hb|done].
  - intros [(b & [->|Hb]%elem_of_cons & Hk)|Hacc]; apply IH.
    + right. rewrite Hk. rewrite lookup_insert_eq. by eexists.
    + left. eauto.
    + right. rewrite lookup_insert. case_decide; [by eexists|done].
Qed.

Lemma updateBlocks_cells (bs : list Block) (x y z : Z) :
  (is_Some (updateBlocks bs !! positionKey x y z)
   ↔ ∃ b, b ∈ bs ∧ position b = {| px := x; py := y; pz := z |}) ∧
  (∀ b, updateBlocks bs !! positionKey x y z = Some b →
        b ∈ bs ∧ position b = {| px := x; py := y; pz := z |}).
Proof.
  assert (∀ b, updateBlocks bs !! positionKey x y z = Some b →
               b ∈ bs ∧ position b = {| px := x; py := y; pz := z |}) as Hval.
  { intros b [[Hin Hk]|Hempty]%updateBlocks_lookup_acc; [|done].
    split; [done|]. by apply keyOf_inj. }
  split; [|done]. split.
  - intros [b Hb]. exists b. by apply Hval.
  - intros (b & Hin & Hpos). apply updateBlocks_occupied_acc. left.
    exists b. split; [done|]. by rewrite Hpos.
Qed.

(** X24. The collision index built by [updateBlocks] has a cell occupied
    exactly when the list holds a block with that position, and the block
    stored for a cell is a block of the list at that position. *)
Theorem updateBlocks_occupied (bs : list Block) (x y z : Z) :
  (is_Some (updateBlocks bs !! positionKey x y z)
   ↔ ∃ b, b ∈ bs ∧ position b = {| px := x; py := y; pz := z |}) ∧
  (∀ b, updateBlocks bs !! positionKey x y z = Some b →
        b ∈ bs ∧ position b = {| px := x; py := y; pz := z |}).
Proof. apply updateBlocks_cells. Qed.

(** The collision test holds exactly when the test of some cell does. *)
Lemma hasCollision_cells (index : gmap string Block) (pos : Vector3) :
  hasCollisionAtPosition index pos = true
  ↔ ∃ i j k : Z, collidesWith index pos i j k = true.
Proof.
  unfold hasCollisionAtPosition, collidesWith.
  set (playerBox := getPlayerBoundingBox pos).
  rewrite anyInRange_true. split.
  - intros (i & Hi & H1). apply anyInRange_true in H1 as (j & Hj & H2).
    apply anyInRange_true in H2 as (k & Hk & H3).
    apply andb_prop in H3 as [Hkey Hint].
    exists i, j, k. rewrite Hkey, Hint, !andb_true_r, !andb_true_iff, !Z.leb_le.
    lia.
  - intros (i & j & k & H).
    rewrite !andb_true_iff, !Z.leb_le in H.
    destruct H as [[[[[[[? ?] ?] ?] ?] ?] Hkey] Hint].
    exists i. split; [lia|].
    apply anyInRange_true. exists j. split; [lia|].
    apply anyInRange_true. exists k. split; [lia|].
    by rewrite Hkey, Hint.
Qed.

Lemma hasCollision_empty (pos : Vector3) :
  hasCollisionAtPosition ∅ pos = false.
Proof.
  apply not_true_is_false. intros (i & j & k & H)%hasCollision_cells.
  unfold collidesWith in H. rewrite lookup_empty in H.
  rewrite bool_decide_eq_false_2 in H by (by intros [? ?]).
  by rewrite andb_false_r in H.
Qed.

(** With no blocks loaded nothing stops the observer: against the empty
    index [checkCollision] returns the position moved by the whole
    velocity. *)
Lemma checkCollision_empty (pos velocity : Vector3) :
  checkCollision (updateBlocks []) pos velocity
  = {| vx := vx pos + vx velocity; vy := vy pos + vy velocity;
       vz := vz pos + vz velocity |}%Q.
Proof.
  unfold checkCollision. change (updateBlocks []) with (∅ : gmap string Block).
  by rewrite !hasCollision_empty.
Qed.

(** ** Ground height *)

Lemma scanDown_cases (index : gmap string Block) (blockX blockZ : Z)
    (n : nat) (y : Z) :
  (∃ y0, y - Z.of_nat n < y0 ≤ y ∧
         is_Some (index !! positionKey blockX y0 blockZ) ∧
         (∀ y', y0 < y' ≤ y → index !! positionKey blockX y' blockZ = None) ∧
         scanDown index blockX blockZ n y
         = (inject_Z (y0 + 1) * BLOCK_SIZE + PLAYER_HEIGHT)%Q)
  ∨ ((∀ y', y - Z.of_nat n < y' ≤ y →
        index !! positionKey blockX y' blockZ = None) ∧
     scanDown index blockX blockZ n y = PLAYER_HEIGHT).
Proof.
  revert y. induction n as [|n IH]; intros y.
  - right. split; [intros y' Hy'; lia|done].
  - cbn [scanDown].
    destruct (index !! positionKey blockX y blockZ) as [b|] eqn:Hb.
    + left. exists y. rewrite bool_decide_eq_true_2 by (by eexists).
      repeat split; [lia..|by eexists|intros y' Hy'; lia].
    + rewrite bool_decide_eq_false_2 by (by intros [? ?]).
      destruct (IH (y - 1)) as [(y0 & Hy0 & Hsome & Hnone & Heq)|[Hnone Heq]].
      * left. exists y0. repeat split; [lia..|done| |done].
        intros y' Hy'. destruct (decide (y' = y)) as [->|]; [done|].
        apply Hnone. lia.
      * right. split; [|done]. intros y' Hy'.
        destruct (decide (y' = y)) as [->|]; [done|]. apply Hnone. lia.
Qed.

Lemma getGroundHeight_cases (index : gmap string Block) (x z : Q) :
  let blockX := Qfloor (x / BLOCK_SIZE) in
  let blockZ := Qfloor (z / BLOCK_SIZE) in
  (∃ y0, -10 ≤ y0 ≤ 200 ∧
         is_Some (index !! positionKey blockX y0 blockZ) ∧
         (∀ y', y0 < y' ≤ 200 → index !! positionKey blockX y' blockZ = None) ∧
         getGroundHeight index x z = (inject_Z (y0 + 1) * (5 # 10) + 1)%Q)
  ∨ ((∀ y', -10 ≤ y' ≤ 200 → index !! positionKey blockX y' blockZ = None) ∧
     getGroundHeight index x z = 1%Q).
Proof.
  intros blockX blockZ. unfold getGroundHeight.
  destruct (scanDown_cases index blockX blockZ 211 200)
    as [(y0 & Hy0 & Hsome & Hnone & Heq)|[Hnone Heq]].
  - left. exists y0. repeat split; [lia..|done|done|done].
  - right. split; [|done]. intros y' Hy'. apply Hnone. lia.
Qed.

(** X26. The ground height lies between -3.5 and 101.5: it is the default
    1.0 or one block above a cell of the scanned range [-10, 200], so a
    lone block at the bottom of the range gives a ground below the
    default. *)
Theorem getGroundHeight_bounds (index : gmap string Block) (x z : Q) :
  (- (35 # 10) <= getGroundHeight index x z)%Q ∧
  (getGroundHeight index x z <= 1015 # 10)%Q.
Proof.
  destruct (getGroundHeight_cases index x z)
    as [(y0 & Hy0 & _ & _ & ->)|[_ ->]]; [|split; by compute].
  assert (inject_Z (-9) <= inject_Z (y0 + 1))%Q as Hlo by (rewrite <- Zle_Qle; lia).
  assert (inject_Z (y0 + 1) <= inject_Z 201)%Q as Hhi by (rewrite <- Zle_Qle; lia).
  change (inject_Z (-9)) with (- 9)%Q in Hlo. change (inject_Z 201) with 201%Q in Hhi.
  split; lra.
Qed.

Lemma scanDown_agree (index1 index2 : gmap string Block) (blockX blockZ : Z)
    (n : nat) (y : Z) :
  (∀ y', y - Z.of_nat n < y' ≤ y →
     (is_Some (index1 !! positionKey blockX y' blockZ)
      ↔ is_Some (index2 !! positionKey blockX y' blockZ))) →
  scanDown index1 blockX blockZ n y = scanDown index2 blockX blockZ n y.
Proof.
  revert y. induction n as [|n IH]; intros y Hagree; [done|].
  cbn [scanDown].
  assert (y - Z.of_nat (S n) < y ≤ y) as Hy by lia.
  rewrite (bool_decide_ext (is_Some (index1 !! positionKey blockX y blockZ))
             (is_Some (index2 !! positionKey blockX y blockZ)) (Hagree y Hy)).
  case_bool_decide; [done|]. apply IH. intros y' Hy'. apply Hagree. lia.
Qed.

(** X27. The ground probe sees only the cells of its column between
    y = -10 and y = 200: two indexes that agree on the occupancy of those
    cells give the same ground height, whatever they hold above, below or
    in other columns. *)
Theorem getGroundHeight_scanned_range (index1 index2 : gmap string Block) (x z : Q) :
  (∀ y, -10 ≤ y ≤ 200 →
     (is_Some (index1 !! positionKey (Qfloor (x / BLOCK_SIZE)) y (Qfloor (z / BLOCK_SIZE)))
      ↔ is_Some (index2 !! positionKey (Qfloor (x / BLOCK_SIZE)) y
                   (Qfloor (z / BLOCK_SIZE))))) →
  getGroundHeight index1 x z = getGroundHeight index2 x z.
Proof.
  intros Hagree. unfold getGroundHeight. apply scanDown_agree.
  intros y Hy. apply Hagree. lia.
Qed.

Lemma getGroundHeight_scanned_range_witness :
  getGroundHeight (updateBlocks [stoneAt050]) 0 0
  = getGroundHeight
      (updateBlocks
         [stoneAt050; {| position := {| px := 0; py := 300; pz := 0 |}; type := stone |}])
      0 0.
Proof.
  apply getGroundHeight_scanned_range.
  intros y Hy. change (Qfloor (0 / BLOCK_SIZE)) with 0.
  rewrite !(proj1 (updateBlocks_cells _ 0 y 0)). split.
  - intros (b & Hb & Hpos). exists b. split; [|done].
    apply list_elem_of_singleton in Hb as ->. apply list_elem_of_here.
  - intros (b & [->|Hb]%elem_of_cons & Hpos).
    + exists stoneAt050. split; [apply list_elem_of_here|done].
    + apply list_elem_of_singleton in Hb as ->. cbn in Hpos.
      injection Hpos as Hpos. lia.
Defined.

Lemma feetLayer_value (y0 : Z) : -10 ≤ y0 ≤ 200 → feetLayer y0 = y0 + 1.
Proof.
  intros Hy0.
  assert (forallb (λ y, feetLayer y =? y + 1) (seqZ (-10) 211) = true) as Hall
    by (vm_compute; reflexivity).
  rewrite forallb_forall in Hall. apply Z.eqb_eq, Hall.
  apply list_elem_of_In, elem_of_seqZ. lia.
Qed.

(** X28. The ground snap puts the observer above its own column: at the
    ground height of [(x, z)] no cell of the column of [(x, z)] at a
    height up to 200 passes the collision test.  Every occupied cell of
    that column lies below the lowest layer the collision scan visits, so
    a collision at the ground position comes from a neighbouring column
    or from above the scanned range. *)
Theorem ground_position_collision (index : gmap string Block) (x z : Q) (j : Z) :
  j ≤ 200 →
  collidesWith index {| vx := x; vy := getGroundHeight index x z; vz := z |}
    (Qfloor (x / BLOCK_SIZE)) j (Qfloor (z / BLOCK_SIZE)) = false.
Proof.
  intros Hj. apply not_true_is_false. unfold collidesWith.
  rewrite !andb_true_iff, !Z.leb_le.
  intros [[[[[[[_ _] Hlow] _] _] _] Hkey] _].
  apply bool_decide_eq_true_1 in Hkey. revert Hlow.
  unfold getPlayerBoundingBox. cbn [box_min fy vy].
  destruct (getGroundHeight_cases index x z)
    as [(y0 & Hy0 & _ & Hnone & ->)|[Hnone ->]].
  - change (Math_floor _) with (feetLayer y0). rewrite feetLayer_value by done.
    intros Hlow. rewrite Hnone in Hkey by lia. by destruct Hkey.
  - change (Math_floor _) with 0. intros Hlow.
    rewrite Hnone in Hkey by lia. by destruct Hkey.
Qed.

(** Beside the taller neighbour the observer stands on the origin block:
    the cell below its feet does not pass the collision test, while the
    neighbouring column does collide. *)
Lemma ground_position_collision_witness :
  let pos := {| vx := 3 # 10; vy := getGroundHeight stepIndex (3 # 10) 0; vz := 0 |} in
  is_Some (stepIndex !! positionKey (Qfloor ((3 # 10) / BLOCK_SIZE)) 0
             (Qfloor (0 / BLOCK_SIZE)))
  ∧ collidesWith stepIndex pos
      (Qfloor ((3 # 10) / BLOCK_SIZE)) 0 (Qfloor (0 / BLOCK_SIZE)) = false
  ∧ hasCollisionAtPosition stepIndex pos = true.
Proof.
  cbv zeta. split; [by eexists|]. split.
  - apply (ground_position_collision stepIndex (3 # 10) 0 0). lia.
  - vm_compute. reflexivity.
Defined.

(** ** Movement-driven streaming *)

Lemma chunk_coord_close (a b : Q) :
  (Qabs (a - b) <= 4)%Q →
  -1 ≤ Qfloor (a / inject_Z CHUNK_SIZE) - Qfloor (b / inject_Z CHUNK_SIZE) ≤ 1.
Proof.
  intros [Hlo Hhi]%Qabs_Qle_condition.
  assert (∀ c : Q, (c / inject_Z CHUNK_SIZE == c * (1 # 8))%Q) as Hdiv.
  { intros c. unfold CHUNK_SIZE. field. }
  pose proof (Qfloor_le (a / inject_Z CHUNK_SIZE)) as Ha1.
  pose proof (Qlt_floor (a / inject_Z CHUNK_SIZE)) as Ha2.
  pose proof (Qfloor_le (b / inject_Z CHUNK_SIZE)) as Hb1.
  pose proof (Qlt_floor (b / inject_Z CHUNK_SIZE)) as Hb2.
  set (fa := Qfloor (a / inject_Z CHUNK_SIZE)) in *.
  set (fb := Qfloor (b / inject_Z CHUNK_SIZE)) in *.
  rewrite Hdiv in Ha1, Ha2, Hb1, Hb2.
  rewrite inject_Z_plus in Ha2, Hb2.
  change (inject_Z 1) with 1%Q in Ha2, Hb2.
  assert (inject_Z fa < inject_Z (fb + 2))%Q as H1.
  { rewrite inject_Z_plus. change (inject_Z 2) with 2%Q. lra. }
  assert (inject_Z fb < inject_Z (fa + 2))%Q as H2.
  { rewrite inject_Z_plus. change (inject_Z 2) with 2%Q. lra. }
  rewrite <- Zlt_Qlt in H1, H2. lia.
Qed.

Section MovementStreaming.

Variable noiseHeight : Z → Z → Z.

Lemma startTerrain_cached (rng : RandomSource) :
  RefreshSquareCached (startTerrain noiseHeight (newWorldManager, rng)).1.
Proof.
  unfold startTerrain, WorldManager.generateTerrain, newWorldManager.
  cbn [fst snd chunkManager lastPlayerPosition].
  pose proof (λ key, proj2 (updateLoadedChunks_cached noiseHeight 0 0 (∅, rng) key))
    as Hcached.
  destruct (updateLoadedChunks noiseHeight 0 0 (∅, rng)) as [chunks rng'].
  intros chunkX chunkZ Hsq. cbn in *. apply Hcached. by exists chunkX, chunkZ.
Qed.

Lemma updateWorld_cached (st : WorldManagerState * RandomSource) (player : Q * Q) :
  RefreshSquareCached st.1 →
  RefreshSquareCached (updateWorld noiseHeight st player).1 ∧
  (Qabs (player.1 - (lastPlayerPosition (updateWorld noiseHeight st player).1).1) <= 4)%Q ∧
  (Qabs (player.2 - (lastPlayerPosition (updateWorld noiseHeight st player).1).2) <= 4)%Q.
Proof.
  intros Hst. destruct player as [playerX playerZ]. unfold updateWorld.
  destruct (Qltb 4 (Qabs (playerX - (lastPlayerPosition st.1).1))
            || Qltb 4 (Qabs (playerZ - (lastPlayerPosition st.1).2))) eqn:Hmoved.
  - pose proof (λ key, proj2 (updateLoadedChunks_cached noiseHeight playerX playerZ
                                (chunkManager st.1, st.2) key)) as Hcached.
    destruct (updateLoadedChunks noiseHeight playerX playerZ (chunkManager st.1, st.2))
      as [chunks rng'].
    cbn [fst snd chunkManager lastPlayerPosition] in *. split; [|split].
    + intros chunkX chunkZ Hsq. apply Hcached. by exists chunkX, chunkZ.
    + apply Qabs_Qle_condition. split; lra.
    + apply Qabs_Qle_condition. split; lra.
  - apply orb_false_elim in Hmoved as [Hx Hz].
    apply Qltb_false in Hx, Hz. done.
Qed.

Lemma placeBlock_keeps_keys (p : Position) (t : BlockType)
    (st : gmap string Chunk * RandomSource) (key : string) :
  is_Some (st.1 !! key) → is_Some ((placeBlock noiseHeight p t st).1 !! key).
Proof.
  intros Hkey. unfold placeBlock.
  destruct ((py p <? 0) || (py p >? MAX_HEIGHT + 20)); [done|].
  destruct (isWater t); [done|].
  set (coord := getChunkCoord (px p) (pz p)).
  destruct (getOrGenerateChunk_lookup noiseHeight (coord_x coord) (coord_z coord) st)
    as (_ & Hold & _).
  destruct (getOrGenerateChunk noiseHeight (coord_x coord) (coord_z coord) st)
    as [c [chunks rng]].
  cbn [fst snd] in *. rewrite lookup_insert. case_decide; [by eexists|].
  destruct Hkey as [c' Hc']. exists c'. by apply Hold.
Qed.

Lemma removeBlock_keeps_keys (p : Position) (chunks : gmap string Chunk)
    (key : string) :
  is_Some (chunks !! key) → is_Some (removeBlock p chunks !! key).
Proof.
  intros Hkey. unfold removeBlock.
  destruct (chunks !! getChunkKey _ _) as [c|] eqn:Hc; [|done].
  rewrite lookup_insert. by case_decide.
Qed.

Lemma worldStep_cached (st : WorldManagerState * RandomSource) (a : WorldAction) :
  RefreshSquareCached st.1 → RefreshSquareCached (worldStep noiseHeight st a).1.
Proof.
  intros Hst. destruct a as [playerX playerZ|p t|p]; cbn [worldStep].
  - by apply updateWorld_cached.
  - pose proof (placeBlock_keeps_keys p t (chunkManager st.1, st.2)) as Hkeep.
    destruct (placeBlock noiseHeight p t (chunkManager st.1, st.2)) as [chunks rng].
    intros chunkX chunkZ Hsq. cbn [fst snd chunkManager lastPlayerPosition] in *.
    by apply Hkeep, Hst.
  - intros chunkX chunkZ Hsq. cbn [fst snd chunkManager lastPlayerPosition] in *.
    by apply removeBlock_keeps_keys, Hst.
Qed.

Lemma worldStep_run_cached (actions : list WorldAction) (rng : RandomSource) :
  RefreshSquareCached
    (foldl (worldStep noiseHeight) (startTerrain noiseHeight (newWorldManager, rng))
       actions).1.
Proof.
  generalize (startTerrain_cached rng).
  generalize (startTerrain noiseHeight (newWorldManager, rng)).
  induction actions as [|a actions IH]; intros st Hst; cbn; [done|].
  apply IH. by apply worldStep_cached.
Qed.

(** X29. The hysteresis never lets the observer outrun the loaded
    terrain: in a world started with [generateTerrain], after any sequence
    of [updateWorld], [placeBlock] and [removeBlock] calls followed by an
    [updateWorld] at the observer position, every chunk within two chunks
    of the observer's chunk is cached. *)
Theorem updateWorld_keeps_player_surrounded (actions : list WorldAction)
    (rng : RandomSource) (player : Q * Q) (chunkX chunkZ : Z) :
  let st :=
    updateWorld noiseHeight
      (foldl (worldStep noiseHeight)
         (startTerrain noiseHeight (newWorldManager, rng)) actions)
      player in
  let playerChunk := getChunkCoordQ player.1 player.2 in
  coord_x playerChunk - 2 ≤ chunkX ≤ coord_x playerChunk + 2 →
  coord_z playerChunk - 2 ≤ chunkZ ≤ coord_z playerChunk + 2 →
  is_Some (chunkManager st.1 !! getChunkKey chunkX chunkZ).
Proof.
  intros st playerChunk Hx Hz.
  destruct (updateWorld_cached
              (foldl (worldStep noiseHeight)
                 (startTerrain noiseHeight (newWorldManager, rng)) actions)
              player (worldStep_run_cached actions rng))
    as (Hcached & Hdx & Hdz).
  fold st in Hcached, Hdx, Hdz.
  apply Hcached. unfold inRenderSquare, RENDER_DISTANCE.
  apply chunk_coord_close in Hdx, Hdz.
  subst playerChunk. unfold getChunkCoordQ in *. cbn [coord_x coord_z] in *. lia.
Qed.

End MovementStreaming.

Lemma updateWorld_keeps_player_surrounded_witness :
  let st :=
    updateWorld sampleHeight
      (foldl (worldStep sampleHeight)
         (startTerrain sampleHeight (newWorldManager, treeDraws))
         [ActMove 3 2; ActPlace {| px := 3; py := 25; pz := 3 |} stone; ActMove 7 2])
      (10, 2)%Q in
  is_Some (chunkManager st.1 !! getChunkKey 3 (-2)).
Proof.
  apply (updateWorld_keeps_player_surrounded sampleHeight
           [ActMove 3 2; ActPlace {| px := 3; py := 25; pz := 3 |} stone; ActMove 7 2]
           treeDraws (10, 2)%Q 3 (-2)).
  - change (coord_x (getChunkCoordQ (10, 2)%Q.1 (10, 2)%Q.2)) with 1. lia.
  - change (coord_z (getChunkCoordQ (10, 2)%Q.1 (10, 2)%Q.2)) with 0. lia.
Defined.

(** ** The vertical part of a tick *)

Lemma snap_to_ground (ground : Q → Q → Q) (newPosition : Vector3) (v1 : Q) :
  let s' :=
    if Qle_bool (vy newPosition) (ground (vx newPosition) (vz newPosition))
       && Qle_bool v1 0
    then
      {| cameraPosition :=
           {| vx := vx newPosition;
              vy := ground (vx newPosition) (vz newPosition);
              vz := vz newPosition |};
         verticalVelocity := 0%Q;
         isOnGround := true |}
    else
      {| cameraPosition := newPosition;
         verticalVelocity := v1;
         isOnGround := false |} in
  (isOnGround s' = true →
   vy (cameraPosition s')
     = ground (vx (cameraPosition s')) (vz (cameraPosition s')) ∧
   verticalVelocity s' = 0%Q) ∧
  ((verticalVelocity s' <= 0)%Q →
   (ground (vx (cameraPosition s')) (vz (cameraPosition s'))
    <= vy (cameraPosition s'))%Q).
Proof.
  cbv zeta.
  destruct (Qle_bool (vy newPosition) _ && Qle_bool v1 0) eqn:Hsnap;
    cbn [cameraPosition verticalVelocity isOnGround vx vy vz].
  - split; [done|]. intros _. apply Qle_refl.
  - split; [done|]. intros Hv.
    apply andb_false_iff in Hsnap as [Hy|Hv'].
    + apply Qlt_le_weak, Qnot_le_lt. intros Hle.
      apply Qle_bool_iff in Hle. congruence.
    + apply Qle_bool_iff in Hv. congruence.
Qed.

(** X30. Grounding: an observer that a tick leaves flagged on the ground
    stands at the ground height of its column with no vertical velocity;
    and an observer that is not moving upward after the tick is never left
    below the ground height of its column. *)
Theorem updateMovement_grounding (index : gmap string Block) (delta : Q)
    (keySpace keyShiftLeft : bool) (horizontal : Q * Q) (s : ControlState) :
  let s' := updateMovement index delta keySpace keyShiftLeft horizontal s in
  let ground :=
    getGroundHeight index (vx (cameraPosition s')) (vz (cameraPosition s')) in
  (isOnGround s' = true →
   vy (cameraPosition s') = ground ∧ verticalVelocity s' = 0%Q) ∧
  ((verticalVelocity s' <= 0)%Q → (ground <= vy (cameraPosition s'))%Q).
Proof.
  cbv zeta. unfold updateMovement.
  destruct (if keyShiftLeft && keySpace then _ else _) as [v1 velY].
  apply (snap_to_ground (getGroundHeight index)).
Qed.
